(** * ev-earth-simulator: the marker layer of [script.js]

    A shallow embedding of the part of [script.js] that places location
    markers on the globe: the projection [latLonToVector3], the marker store
    ([addMarker], [clearMarkers]), the refresh cycle [geocodeAndAddMarkers]
    and the sidebar handlers that write the [settings] object.

    Conventions of the embedding.
    - A JavaScript number is an exact real, [+Infinity], [-Infinity] or [NaN]
      (type [number]).  The results of arithmetic and of reading a decimal
      literal are not rounded to binary64 and do not overflow, and the sign
      of zero is not represented.  An integer read digit by digit ([parseInt], a
      hexadecimal, octal or binary literal) is rounded to the nearest
      binary64 number: from [2^53] on the rounding changes which integer is
      stored.
    - A JavaScript string is a [string] of one-byte characters; the white
      space recognised by the parsing builtins is the ASCII part of the
      ECMAScript set.
    - A value is what [JSON.parse] can give, or [undefined]: no value is a
      function, and an object has own data properties only.
    - The [settings] object is a finite map from property names to values,
      so that a property can be absent.
    - Three.js objects are records; an object's identity is its [mesh_id]
      (Three.js numbers every [Object3D] from a global counter).
    - An [async] call of [geocodeAndAddMarkers] is a task that the event
      loop resumes at each of its three [await]s; what the network answers
      is an input of the step function.
    - The DOM is left out, and of the renderer, the lights and the shadow
      plane only what the handlers set ([View]); the events that touch none
      of the state below (resize, animation frames, texture loads, the
      sidebar toggle) do not appear. *)

From Stdlib Require Import Reals Lra ZArith Ascii String.
From stdpp Require Import gmap strings list.

(** ** Numbers *)

Module JS.

Inductive number : Type :=
  | Num (r : R)
  | PosInf
  | NegInf
  | NaN.

(** The infinity that carries the sign of [r]; [NaN] for [0 * Infinity]. *)
Definition signed_inf (r : R) : number :=
  if Rlt_dec 0 r then PosInf else if Rlt_dec r 0 then NegInf else NaN.

Definition neg (x : number) : number :=
  match x with
  | Num r => Num (- r)
  | PosInf => NegInf
  | NegInf => PosInf
  | NaN => NaN
  end.

Definition add (x y : number) : number :=
  match x, y with
  | NaN, _ | _, NaN => NaN
  | Num a, Num b => Num (a + b)
  | PosInf, NegInf | NegInf, PosInf => NaN
  | PosInf, _ | _, PosInf => PosInf
  | NegInf, _ | _, NegInf => NegInf
  end.

Definition sub (x y : number) : number :=
  match x, y with
  | NaN, _ | _, NaN => NaN
  | Num a, Num b => Num (a - b)
  | PosInf, PosInf | NegInf, NegInf => NaN
  | PosInf, _ | _, NegInf => PosInf
  | NegInf, _ | _, PosInf => NegInf
  end.

Definition mul (x y : number) : number :=
  match x, y with
  | NaN, _ | _, NaN => NaN
  | Num a, Num b => Num (a * b)
  | Num a, PosInf | PosInf, Num a => signed_inf a
  | Num a, NegInf | NegInf, Num a => signed_inf (- a)
  | PosInf, PosInf | NegInf, NegInf => PosInf
  | PosInf, NegInf | NegInf, PosInf => NegInf
  end.

(** Division; a zero divisor counts as [+0]. *)
Definition div (x y : number) : number :=
  match x, y with
  | NaN, _ | _, NaN => NaN
  | Num a, Num b => if Req_EM_T b 0 then signed_inf a else Num (a / b)
  | Num _, _ => Num 0
  | PosInf, Num b => if Rlt_dec b 0 then NegInf else PosInf
  | NegInf, Num b => if Rlt_dec b 0 then PosInf else NegInf
  | _, _ => NaN
  end.

(** [x > y]. *)
Definition gt (x y : number) : bool :=
  match x, y with
  | NaN, _ | _, NaN => false
  | Num a, Num b => if Rlt_dec b a then true else false
  | PosInf, PosInf | NegInf, _ | _, PosInf => false
  | PosInf, _ | _, NegInf => true
  end.

(** [ToBoolean] of a number. *)
Definition number_truthy (x : number) : bool :=
  match x with
  | Num r => if Req_EM_T r 0 then false else true
  | PosInf | NegInf => true
  | NaN => false
  end.

(** [a || b] on numbers. *)
Definition or_else (a b : number) : number :=
  if number_truthy a then a else b.

Definition of_Z (z : Z) : number := Num (IZR z).
Definition of_nat (n : nat) : number := of_Z (Z.of_nat n).

(** The binary64 number nearest to the integer [z], ties to the even
    significand: [z] itself below [2^53]; otherwise [z] cut to its 53
    leading bits [q], one more when the bits cut off are over the half, or
    are the half with [q] odd; an infinity from [2^1024] on. *)
Definition of_integer (z : Z) : number :=
  let a := Z.abs z in
  if (a <? 2 ^ 53)%Z then of_Z z
  else
    let e := (Z.log2 a - 52)%Z in
    let q := Z.shiftr a e in
    let r := Z.land a (Z.ones e) in
    let half := Z.shiftl 1 (e - 1) in
    let q' := if ((half <? r) || (half =? r) && Z.odd q)%Z then (q + 1)%Z else q in
    let m := Z.shiftl q' e in
    if (2 ^ 1024 <=? m)%Z then (if (z <? 0)%Z then NegInf else PosInf)
    else of_Z (Z.sgn z * m).

End JS.

Export JS.

Declare Scope js_scope.
Delimit Scope js_scope with js.
Bind Scope js_scope with number.
Infix "+" := add : js_scope.
Infix "-" := sub : js_scope.
Infix "*" := mul : js_scope.
Infix "/" := div : js_scope.
Notation "- x" := (neg x) : js_scope.

(** ** [Math] *)

Module Math.

Definition PI : number := Num Rtrigo1.PI.

Definition sin (x : number) : number :=
  match x with
  | Num r => Num (Rtrigo_def.sin r)
  | _ => NaN
  end.

Definition cos (x : number) : number :=
  match x with
  | Num r => Num (Rtrigo_def.cos r)
  | _ => NaN
  end.

Definition sqrt (x : number) : number :=
  match x with
  | Num r => if Rlt_dec r 0 then NaN else Num (R_sqrt.sqrt r)
  | PosInf => PosInf
  | _ => NaN
  end.

End Math.

(** ** Strings and the parsing builtins *)

Module Str.

Definition code (c : ascii) : Z := Z.of_N (N_of_ascii c).

(** White space and line terminators (ASCII part): TAB, LF, VT, FF, CR, SP. *)
Definition is_space (c : ascii) : bool :=
  let n := code c in ((9 <=? n) && (n <=? 13) || (n =? 32))%Z.

(** The value of [c] as a digit of the given radix, if it is one. *)
Definition digit_of (radix : Z) (c : ascii) : option Z :=
  let n := code c in
  let d :=
    if ((48 <=? n) && (n <=? 57))%Z then Some (n - 48)%Z
    else if ((97 <=? n) && (n <=? 122))%Z then Some (n - 87)%Z
    else if ((65 <=? n) && (n <=? 90))%Z then Some (n - 55)%Z
    else None in
  match d with
  | Some v => if (v <? radix)%Z then Some v else None
  | None => None
  end.

Fixpoint trim_start (s : string) : string :=
  match s with
  | String c s' => if is_space c then trim_start s' else s
  | EmptyString => s
  end.

Fixpoint trim_end (s : string) : string :=
  match s with
  | String c s' =>
      match trim_end s' with
      | EmptyString => if is_space c then EmptyString else String c EmptyString
      | t => String c t
      end
  | EmptyString => EmptyString
  end.

(** [String.prototype.trim]. *)
Definition trim (s : string) : string := trim_end (trim_start s).

(** [s.replace(c, by)] for a one-character pattern: the first occurrence. *)
Fixpoint replace_first (c : ascii) (by_ : string) (s : string) : string :=
  match s with
  | String a s' =>
      if Ascii.eqb a c then (by_ +:+ s') else String a (replace_first c by_ s')
  | EmptyString => EmptyString
  end.

(** The longest run of digits at the head of [s]: the number it denotes
    after the digits already read ([acc]), how many were read, the rest. *)
Fixpoint read_digits (radix acc : Z) (n : nat) (s : string) : Z * nat * string :=
  match s with
  | String c s' =>
      match digit_of radix c with
      | Some d => read_digits radix (radix * acc + d)%Z (S n) s'
      | None => (acc, n, s)
      end
  | EmptyString => (acc, n, s)
  end.

(** An optional sign: [true] when it is [-]. *)
Definition read_sign (s : string) : bool * string :=
  match s with
  | String "-"%char s' => (true, s')
  | String "+"%char s' => (false, s')
  | _ => (false, s)
  end.

Definition strip_prefix (p s : string) : option string :=
  if String.prefix p s
  then Some (String.substring (String.length p) (String.length s - String.length p) s)
  else None.

(** [m * 10 ^ e] as a real. *)
Definition scale10 (m e : Z) : R :=
  if (0 <=? e)%Z then IZR (m * 10 ^ e) else (IZR m / IZR (10 ^ (- e)))%R.

(** An [ExponentPart] at the head of [s], if a complete one is there. *)
Definition read_exponent (s : string) : Z * string :=
  match s with
  | String c s' =>
      if (Ascii.eqb c "e" || Ascii.eqb c "E")%bool then
        let '(minus, s1) := read_sign s' in
        let '(e, n, s2) := read_digits 10 0 0 s1 in
        match n with
        | O => (0%Z, s)
        | S _ => ((if minus then - e else e)%Z, s2)
        end
      else (0%Z, s)
  | EmptyString => (0%Z, s)
  end.

(** The longest prefix of [s] that is a [StrDecimalLiteral], as its value and
    what follows it; [None] when no prefix is one. *)
Definition read_decimal (s : string) : option (number * string) :=
  let '(minus, s1) := read_sign s in
  match strip_prefix "Infinity" s1 with
  | Some rest => Some (if minus then NegInf else PosInf, rest)
  | None =>
      let '(ip, ni, s2) := read_digits 10 0 0 s1 in
      let mantissa :=
        match s2 with
        | String "."%char s3 =>
            let '(m, nf, s4) := read_digits 10 ip 0 s3 in
            match ni, nf with
            | O, O => None
            | _, _ => Some (m, Z.of_nat nf, s4)
            end
        | _ =>
            match ni with
            | O => None
            | S _ => Some (ip, 0%Z, s2)
            end
        end in
      match mantissa with
      | Some (m, nf, rest) =>
          let '(e, rest') := read_exponent rest in
          Some (Num (scale10 (if minus then - m else m) (e - nf)), rest')
      | None => None
      end
  end.

(** [parseFloat] of a string. *)
Definition parseFloat (s : string) : number :=
  match read_decimal (trim_start s) with
  | Some (v, _) => v
  | None => NaN
  end.

(** [parseInt] of a string, no radix given: radix 16 after [0x], else 10;
    the integer that the digits denote, as a binary64 number.  (Past the
    20th decimal digit an implementation may read the digits as zeros; here
    they are read as they stand.) *)
Definition parseInt (s : string) : number :=
  let '(minus, s1) := read_sign (trim_start s) in
  let '(radix, s2) :=
    match s1 with
    | String "0"%char (String c s') =>
        if (Ascii.eqb c "x" || Ascii.eqb c "X")%bool then (16%Z, s') else (10%Z, s1)
    | _ => (10%Z, s1)
    end in
  let '(v, n, _) := read_digits radix 0 0 s2 in
  match n with
  | O => NaN
  | S _ => of_integer (if minus then - v else v)
  end.

(** A [NonDecimalIntegerLiteral] ([0x], [0o], [0b]) that is all of [s]. *)
Definition read_nondecimal (s : string) : option number :=
  match s with
  | String "0"%char (String c s') =>
      let radix :=
        if (Ascii.eqb c "x" || Ascii.eqb c "X")%bool then Some 16%Z
        else if (Ascii.eqb c "o" || Ascii.eqb c "O")%bool then Some 8%Z
        else if (Ascii.eqb c "b" || Ascii.eqb c "B")%bool then Some 2%Z
        else None in
      match radix with
      | Some r =>
          match read_digits r 0 0 s' with
          | (v, S _, EmptyString) => Some (of_integer v)
          | _ => None
          end
      | None => None
      end
  | _ => None
  end.

(** [ToNumber] of a string ([StringToNumber]). *)
Definition to_number (s : string) : number :=
  match trim s with
  | EmptyString => Num 0
  | t =>
      match read_nondecimal t with
      | Some v => v
      | None =>
          match read_decimal t with
          | Some (v, EmptyString) => v
          | _ => NaN
          end
      end
  end.

End Str.

(** ** Values *)

#[local] Set Warnings "-register-all".

Inductive value : Type :=
  | VUndefined
  | VNull
  | VBool (b : bool)
  | VNumber (n : number)
  | VString (s : string)
  | VArray (elems : list value)
  | VObject (fields : list (string * value)).

(** What an expression evaluates to: a value, or a thrown exception. *)
Inductive completion (A : Type) : Type :=
  | Normal (a : A)
  | Throw (error : string).
Arguments Normal {A} a.
Arguments Throw {A} error.

(** One expression after another: what is thrown ends the evaluation. *)
#[global] Instance completion_bind : MBind completion :=
  fun A B f c =>
    match c with
    | Normal a => f a
    | Throw error => Throw error
    end.

Module Val.

(** The own property [k] of a parsed object; [undefined] when absent. *)
Fixpoint field (k : string) (fs : list (string * value)) : value :=
  match fs with
  | [] => VUndefined
  | (k', v) :: fs' => if String.eqb k k' then v else field k fs'
  end.

(** [ToBoolean]. *)
Definition truthy (v : value) : bool :=
  match v with
  | VUndefined | VNull => false
  | VBool b => b
  | VNumber n => number_truthy n
  | VString s => negb (String.eqb s "")
  | VArray _ | VObject _ => true
  end.

(** [v.length] for a [v] that is neither [null] nor [undefined]. *)
Definition length_of (v : value) : value :=
  match v with
  | VArray l => VNumber (of_nat (length l))
  | VString s => VNumber (of_nat (String.length s))
  | VObject fs => field "length" fs
  | _ => VUndefined
  end.

(** [v[0]]. *)
Definition index0 (v : value) : completion value :=
  match v with
  | VUndefined | VNull => Throw "TypeError"
  | VArray l => Normal (default VUndefined (head l))
  | VString (String c _) => Normal (VString (String c EmptyString))
  | VObject fs => Normal (field "0" fs)
  | _ => Normal VUndefined
  end.

(** [v.k] for a property name [k] that is neither [length] nor an index
    and that no prototype defines (here: [lat], [lon]). *)
Definition member (k : string) (v : value) : completion value :=
  match v with
  | VUndefined | VNull => Throw "TypeError"
  | VObject fs => Normal (field k fs)
  | _ => Normal VUndefined
  end.

(** Whether a parsed object has the own property [k]. *)
Definition has_field (k : string) (fs : list (string * value)) : bool :=
  existsb (fun kv => String.eqb k kv.1) fs.

(** [ToPrimitive(v)] returns, with either hint.  A primitive is returned as
    it is.  An object is asked for its [toString] and its [valueOf]: the
    inherited [valueOf] returns the object, no primitive; the inherited
    [toString] returns a string; an own [toString] property of a parsed
    object holds a parsed value, which cannot be called, and then nothing
    gives a primitive and a TypeError is thrown.  An array has the
    [toString] that joins the strings of its elements, so every element
    has to convert in its turn. *)
Fixpoint converts (v : value) : bool :=
  match v with
  | VArray l => forallb converts l
  | VObject fs => negb (has_field "toString" fs)
  | _ => true
  end.

(** What [ToNumber(v)] returns when [v] converts.  An object without a
    [toString] of its own gives the string [[object Object]].  An array
    gives the comma-joined strings of its elements ([null] and
    [undefined] give the empty string): two or more elements leave a
    comma, which no numeric string holds; a number element prints to a
    string that reads back as itself. *)
Fixpoint number_value (v : value) : number :=
  match v with
  | VUndefined => NaN
  | VNull => Num 0
  | VBool b => if b then Num 1 else Num 0
  | VNumber n => n
  | VString s => Str.to_number s
  | VArray [] => Num 0
  | VArray [x] =>
      match x with
      | VUndefined | VNull => Num 0
      | VBool _ | VObject _ => NaN
      | _ => number_value x
      end
  | VArray _ => NaN
  | VObject _ => NaN
  end.

(** [ToNumber]. *)
Definition to_number (v : value) : completion number :=
  if converts v then Normal (number_value v) else Throw "TypeError".

(** What [parseFloat] reads in [ToString(v)] when [v] converts.  Of an
    array's string only the first element's part can be read, the comma
    ends it. *)
Fixpoint float_value (v : value) : number :=
  match v with
  | VNumber n => n
  | VString s => Str.parseFloat s
  | VArray (x :: _) =>
      match x with
      | VUndefined | VNull => NaN
      | _ => float_value x
      end
  | _ => NaN
  end.

(** [parseFloat(v)]: [parseFloat] of [ToString(v)]. *)
Definition parseFloat (v : value) : completion number :=
  if converts v then Normal (float_value v) else Throw "TypeError".

(** [v > 0]. *)
Definition gt_zero (v : value) : completion bool :=
  n ← to_number v; Normal (gt n (Num 0)).

End Val.

(** ** Three.js: vectors and meshes *)

Module THREE.

Record Vector3 : Type := mkVector3 { x : number; y : number; z : number }.

(** [Vector3.length]. *)
Definition length (v : Vector3) : number :=
  Math.sqrt (x v * x v + y v * y v + z v * z v)%js.

Definition multiplyScalar (v : Vector3) (s : number) : Vector3 :=
  mkVector3 (x v * s)%js (y v * s)%js (z v * s)%js.

Definition divideScalar (v : Vector3) (s : number) : Vector3 :=
  multiplyScalar v (Num 1 / s)%js.

(** [Vector3.normalize]: [divideScalar(length() || 1)]. *)
Definition normalize (v : Vector3) : Vector3 :=
  divideScalar v (or_else (length v) (Num 1)).

Definition add (v w : Vector3) : Vector3 :=
  mkVector3 (x v + x w)%js (y v + y w)%js (z v + z w)%js.

Inductive Side : Type := FrontSide | BackSide | DoubleSide.

(** A [Mesh] over a [CircleGeometry] and a [MeshBasicMaterial].  [facing]
    is the point given to [lookAt], which fixes the orientation together
    with [position]. *)
Record Mesh : Type := mkMesh {
  mesh_id : nat;
  geometry_radius : value;
  geometry_segments : nat;
  material_color : value;
  material_side : Side;
  position : Vector3;
  facing : Vector3;
}.

End THREE.

Export THREE(Vector3, mkVector3, Mesh, mkMesh, mesh_id, geometry_radius,
  geometry_segments, material_color, material_side, position, facing,
  Side, FrontSide, BackSide, DoubleSide).

(** ** [latLonToVector3] *)

Definition latLonToVector3 (lat lon radius : number) : Vector3 :=
  let phi := ((Num 90 - lat) * (Math.PI / Num 180))%js in
  let theta := ((lon + Num 180) * (Math.PI / Num 180))%js in
  let x := (- (radius * Math.sin phi * Math.cos theta))%js in
  let z := (radius * Math.sin phi * Math.sin theta)%js in
  let y := (radius * Math.cos phi)%js in
  mkVector3 x y z.

(** ** The program state *)

(** The two messages of [geocodeAndAddMarkers]. *)
Inductive log_entry : Type :=
  | LogAdded (city : value) (lat lon : number)
  | LogError (city : value) (error : string).

(** What [response.json()] settles to, and what [fetch(url)] settles to (a
    response is represented by what its [json()] gives). *)
Inductive json_result : Type :=
  | JsonRejected (error : string)
  | JsonResolved (data : value).

Inductive fetch_result : Type :=
  | FetchRejected (error : string)
  | FetchResolved (body : json_result).

(** Where a call of [geocodeAndAddMarkers] is suspended. *)
Inductive point : Type :=
  | AwaitFetch (city : value)
  | AwaitJson (city : value) (body : json_result)
  | AwaitTimer (city : value)
  | Returned
  | Failed (error : string).

(** One call of [geocodeAndAddMarkers]: the position of the array iterator
    of its [for ... of], the suspension point, and (ghost) the milliseconds
    it has spent in its [setTimeout] delays. *)
Record task : Type := mkTask {
  iter_next : nat;
  at_point : point;
  waited : nat;
}.

(** Ghost: marker [p_marker] was added by cycle [p_cycle] for the location
    its iterator gave at index [p_index], geocoded to ([p_lat], [p_lon]). *)
Record placement : Type := mkPlacement {
  p_marker : nat;
  p_cycle : nat;
  p_index : nat;
  p_city : value;
  p_lat : number;
  p_lon : number;
}.

(** [settings], the children of [globe], [markers], the object counter, the
    console, the calls of [geocodeAndAddMarkers] made so far (a cycle's
    number is its index), and two ghost histories: the lookups issued, as
    (cycle, location), and the placements. *)
Record State : Type := mkState {
  settings : gmap string value;
  globe_children : list Mesh;
  markers : list Mesh;
  next_id : nat;
  console : list log_entry;
  tasks : list task;
  requests : list (nat * value);
  placed : list placement;
}.

Definition with_settings (s : gmap string value) (st : State) : State :=
  mkState s (globe_children st) (markers st) (next_id st) (console st)
    (tasks st) (requests st) (placed st).

Definition with_console (c : list log_entry) (st : State) : State :=
  mkState (settings st) (globe_children st) (markers st) (next_id st) c
    (tasks st) (requests st) (placed st).

Definition with_tasks (ts : list task) (st : State) : State :=
  mkState (settings st) (globe_children st) (markers st) (next_id st)
    (console st) ts (requests st) (placed st).

Definition with_requests (rs : list (nat * value)) (st : State) : State :=
  mkState (settings st) (globe_children st) (markers st) (next_id st)
    (console st) (tasks st) rs (placed st).

Definition with_placed (ps : list placement) (st : State) : State :=
  mkState (settings st) (globe_children st) (markers st) (next_id st)
    (console st) (tasks st) (requests st) ps.

(** [settings.k]. *)
Definition setting (k : string) (st : State) : value :=
  default VUndefined (settings st !! k).

(** [let settings = {...}], [let markers = []]; nothing else has run. *)
Definition initial_settings : gmap string value :=
  <["backgroundColor" := VNumber (Num 16777215)]>
  (<["markerColor" := VNumber (Num 16711680)]>
  (<["markerSize" := VNumber (Num 0.008)]>
  (<["locations" :=
       VArray [VString "New York, USA"; VString "Miami, USA"; VString "Cancun, Mexico"]]>
  (<["shadowOpacity" := VNumber (Num 0.35)]>
  (<["shadowSize" := VNumber (Num 5)]>
  (<["shadowPosition" := VNumber (Num (-1.8))]> ∅)))))).

Definition init : State :=
  mkState initial_settings [] [] 0 [] [] [] [].

(** ** The marker store *)

Definition addMarker (lat lon : number) (color size : value) (st : State)
  : Mesh * State :=
  let position := latLonToVector3 lat lon (Num 1.005) in
  let normalVector := THREE.normalize position in
  let marker :=
    mkMesh (next_id st) size 32 color DoubleSide
      position (THREE.add position normalVector) in
  (marker,
   mkState (settings st) (globe_children st ++ [marker]) (markers st ++ [marker])
     (S (next_id st)) (console st) (tasks st) (requests st) (placed st)).

(** [Object3D.remove]: the first child that is this object goes. *)
Fixpoint remove_child (object : Mesh) (children : list Mesh) : list Mesh :=
  match children with
  | [] => []
  | c :: cs =>
      if decide (mesh_id c = mesh_id object) then cs
      else c :: remove_child object cs
  end.

(** [ms.forEach((marker) => globe.remove(marker))] on the children [cs]. *)
Definition remove_all (ms cs : list Mesh) : list Mesh :=
  foldl (fun children marker => remove_child marker children) cs ms.

Definition clearMarkers (st : State) : State :=
  mkState (settings st) (remove_all (markers st) (globe_children st))
    [] (next_id st) (console st) (tasks st) (requests st) (placed st).

(** ** [geocodeAndAddMarkers] *)

(** The block between [await response.json()] and the delay: the guard
    [data && data.length > 0], then [parseFloat(data[0].lat)] and
    [parseFloat(data[0].lon)].  [None]: the guard is false. *)
Definition geocoded (data : value) : completion (option (number * number)) :=
  if Val.truthy data then
    positive ← Val.gt_zero (Val.length_of data);
    if positive : bool then
      first ← Val.index0 data;
      lat_field ← Val.member "lat" first;
      lat ← Val.parseFloat lat_field;
      first ← Val.index0 data;
      lon_field ← Val.member "lon" first;
      lon ← Val.parseFloat lon_field;
      Normal (Some (lat, lon))
    else Normal None
  else Normal None.

Definition set_task (tid : nat) (t : task) (st : State) : State :=
  with_tasks (<[tid := t]> (tasks st)) st.

(** The element an iterator over [v] gives at position [i]: arrays and
    strings are iterable, [None] is the end. *)
Definition iterate (v : value) (i : nat) : completion (option value) :=
  match v with
  | VArray l => Normal (l !! i)
  | VString s =>
      Normal ((fun c => VString (String c EmptyString)) <$> String.get i s)
  | _ => Throw "TypeError"
  end.

(** The head of the [for ... of] for a call whose iterator stands at [i]
    and that has waited [w] ms: the iterator's [next()], then the [fetch] of
    the body.  The iterator reads the array [settings.locations] in place;
    the handlers change that array and never assign the property, so it is
    the array the loop started on. *)
Definition loop_head (tid i w : nat) (st : State) : State :=
  match iterate (setting "locations" st) i with
  | Normal (Some city) =>
      with_requests (requests st ++ [(tid, city)])
        (set_task tid (mkTask (S i) (AwaitFetch city) w) st)
  | Normal None => set_task tid (mkTask i Returned w) st
  | Throw error => set_task tid (mkTask i (Failed error) w) st
  end.

(** [catch (error)]: the message, then the next iteration. *)
Definition catch_error (tid : nat) (t : task) (city : value) (error : string)
  (st : State) : State :=
  loop_head tid (iter_next t) (waited t)
    (with_console (console st ++ [LogError city error]) st).

(** The call itself, up to its first [await]; it takes the next slot of
    [tasks]. *)
Definition geocodeAndAddMarkers (st : State) : State :=
  let st1 := clearMarkers st in
  let tid := length (tasks st1) in
  loop_head tid 0 0 (with_tasks (tasks st1 ++ [mkTask 0 Returned 0]) st1).

(** A cycle is in flight until its call has returned. *)
Definition in_flight (t : task) : bool :=
  match at_point t with
  | Returned | Failed _ => false
  | _ => true
  end.

(** [fetch] settled. *)
Definition after_fetch (tid : nat) (t : task) (city : value) (r : fetch_result)
  (st : State) : State :=
  match r with
  | FetchRejected error => catch_error tid t city error st
  | FetchResolved body =>
      set_task tid (mkTask (iter_next t) (AwaitJson city body) (waited t)) st
  end.

(** The body of [if (data && data.length > 0)], for the location the
    iterator gave at [index]: [addMarker] with the configured colour and
    size, then the message. *)
Definition place_marker (tid index : nat) (city : value) (lat lon : number)
  (st : State) : State :=
  let '(marker, st1) :=
    addMarker lat lon (setting "markerColor" st) (setting "markerSize" st) st in
  let st2 := with_console (console st1 ++ [LogAdded city lat lon]) st1 in
  with_placed
    (placed st2 ++ [mkPlacement (mesh_id marker) tid index city lat lon]) st2.

(** [response.json()] settled. *)
Definition after_json (tid : nat) (t : task) (city : value) (body : json_result)
  (st : State) : State :=
  let sleep := set_task tid (mkTask (iter_next t) (AwaitTimer city) (waited t)) in
  match body with
  | JsonRejected error => catch_error tid t city error st
  | JsonResolved data =>
      match geocoded data with
      | Throw error => catch_error tid t city error st
      | Normal None => sleep st
      | Normal (Some (lat, lon)) =>
          sleep (place_marker tid (pred (iter_next t)) city lat lon st)
      end
  end.

(** The 1000 ms of [setTimeout] have passed. *)
Definition after_timer (tid : nat) (t : task) (st : State) : State :=
  loop_head tid (iter_next t) (waited t + 1000) st.

(** ** The sidebar handlers *)

Definition set_setting (k : string) (v : value) (st : State) : State :=
  with_settings (<[k := v]> (settings st)) st.

Definition color_of (input : string) : value :=
  VNumber (Str.parseInt (Str.replace_first "#" "0x" input)).

Definition number_of (input : string) : value :=
  VNumber (Str.parseFloat input).

(** The click handler of [addLocation]. *)
Definition addLocation (input : string) (st : State) : State :=
  let location := Str.trim input in
  if negb (String.eqb location "") then
    match setting "locations" st with
    | VArray l => set_setting "locations" (VArray (l ++ [VString location])) st
    | _ => st
    end
  else st.

(** The click handler of the [Remove] button made for [index]:
    [settings.locations.splice(index, 1)]. *)
Definition removeLocation (index : nat) (st : State) : State :=
  match setting "locations" st with
  | VArray l => set_setting "locations" (VArray (delete index l)) st
  | _ => st
  end.

(** ** The event loop *)

(** What the event loop can run next: a call of [geocodeAndAddMarkers] (at
    start-up and from the [refreshMarkers] button), the continuation of a
    suspended call, or a handler of the sidebar with the text of its
    control. *)
Inductive event : Type :=
  | Refresh
  | FetchSettled (tid : nat) (r : fetch_result)
  | JsonSettled (tid : nat)
  | TimerFired (tid : nat)
  | BgColorInput (text : string)
  | MarkerColorInput (text : string)
  | MarkerSizeInput (text : string)
  | AmbientLightInput (text : string)
  | DirectionalLightInput (text : string)
  | ShadowOpacityInput (text : string)
  | ShadowSizeInput (text : string)
  | ShadowPositionInput (text : string)
  | AddLocationClick (text : string)
  | RemoveLocationClick (index : nat).

(** One turn of the event loop; [None] when the event cannot happen (no
    call is suspended there, no such button). *)
Definition step (e : event) (st : State) : option State :=
  match e with
  | Refresh => Some (geocodeAndAddMarkers st)
  | FetchSettled tid r =>
      t ← tasks st !! tid;
      match at_point t with
      | AwaitFetch city => Some (after_fetch tid t city r st)
      | _ => None
      end
  | JsonSettled tid =>
      t ← tasks st !! tid;
      match at_point t with
      | AwaitJson city body => Some (after_json tid t city body st)
      | _ => None
      end
  | TimerFired tid =>
      t ← tasks st !! tid;
      match at_point t with
      | AwaitTimer _ => Some (after_timer tid t st)
      | _ => None
      end
  | BgColorInput text => Some (set_setting "backgroundColor" (color_of text) st)
  | MarkerColorInput text => Some (set_setting "markerColor" (color_of text) st)
  | MarkerSizeInput text => Some (set_setting "markerSize" (number_of text) st)
  | AmbientLightInput text =>
      Some (set_setting "ambientLightIntensity" (number_of text) st)
  | DirectionalLightInput text =>
      Some (set_setting "directionalLightIntensity" (number_of text) st)
  | ShadowOpacityInput text => Some (set_setting "shadowOpacity" (number_of text) st)
  | ShadowSizeInput text => Some (set_setting "shadowSize" (number_of text) st)
  | ShadowPositionInput text => Some (set_setting "shadowPosition" (number_of text) st)
  | AddLocationClick text => Some (addLocation text st)
  | RemoveLocationClick index =>
      match setting "locations" st with
      | VArray l => if decide (index < length l) then Some (removeLocation index st) else None
      | _ => None
      end
  end.

Fixpoint run (es : list event) (st : State) : option State :=
  match es with
  | [] => Some st
  | e :: es' => st' ← step e st; run es' st'
  end.

(** The states the program can be in. *)
Definition reachable (st : State) : Prop := ∃ es, run es init = Some st.

(** ** A refresh cycle on its own *)

(** The events that carry cycle [tid] through one iteration when its
    [fetch] settles to [r]: the delay is reached only if nothing threw. *)
Definition iteration_events (tid : nat) (r : fetch_result) : list event :=
  match r with
  | FetchRejected _ => [FetchSettled tid r]
  | FetchResolved (JsonRejected _) => [FetchSettled tid r; JsonSettled tid]
  | FetchResolved (JsonResolved data) =>
      match geocoded data with
      | Throw _ => [FetchSettled tid r; JsonSettled tid]
      | Normal _ => [FetchSettled tid r; JsonSettled tid; TimerFired tid]
      end
  end.

(** The network: what the [k]-th lookup of a cycle, for [city], settles to. *)
Definition network : Type := nat → value → fetch_result.

Fixpoint cycle_events (net : network) (tid k : nat) (locations : list value)
  : list event :=
  match locations with
  | [] => []
  | city :: rest => iteration_events tid (net k city) ++ cycle_events net tid (S k) rest
  end.

(** A whole cycle over [locations], nothing else happening meanwhile. *)
Definition run_cycle (net : network) (locations : list value) (st : State)
  : option State :=
  run (Refresh :: cycle_events net (length (tasks st)) 0 locations) st.

(** How one iteration ends. *)
Inductive outcome : Type :=
  | Thrown (error : string)
  | NoResult
  | Geocoded (lat lon : number).

Definition outcome_of (r : fetch_result) : outcome :=
  match r with
  | FetchRejected error => Thrown error
  | FetchResolved (JsonRejected error) => Thrown error
  | FetchResolved (JsonResolved data) =>
      match geocoded data with
      | Throw error => Thrown error
      | Normal None => NoResult
      | Normal (Some (lat, lon)) => Geocoded lat lon
      end
  end.

(** The loop of [geocodeAndAddMarkers] run to its end, by recursion on the
    locations still to come: [k] is the iterator's position, [w] the time
    waited so far. *)
Fixpoint cycle_from (net : network) (tid k w : nat) (locations : list value)
  (st : State) : State :=
  match locations with
  | [] => set_task tid (mkTask k Returned w) st
  | city :: rest =>
      let st1 := with_requests (requests st ++ [(tid, city)]) st in
      match outcome_of (net k city) with
      | Thrown error =>
          cycle_from net tid (S k) w rest
            (with_console (console st1 ++ [LogError city error]) st1)
      | NoResult => cycle_from net tid (S k) (w + 1000) rest st1
      | Geocoded lat lon =>
          cycle_from net tid (S k) (w + 1000) rest (place_marker tid k city lat lon st1)
      end
  end.

(** The state a whole cycle over [locations] ends in. *)
Definition cycle_result (net : network) (locations : list value) (st : State)
  : State :=
  let st1 := clearMarkers st in
  cycle_from net (length (tasks st)) 0 0 locations
    (with_tasks (tasks st1 ++ [mkTask 0 Returned 0]) st1).

(** The delays a cycle goes through from position [k] on: 1000 ms for
    each iteration that did not throw. *)
Fixpoint cycle_delay (net : network) (k : nat) (locations : list value) : nat :=
  match locations with
  | [] => 0
  | city :: rest =>
      match outcome_of (net k city) with
      | Thrown _ => 0
      | _ => 1000
      end + cycle_delay net (S k) rest
  end.

(** The messages a cycle writes from position [k] on. *)
Fixpoint cycle_log (net : network) (k : nat) (locations : list value)
  : list log_entry :=
  match locations with
  | [] => []
  | city :: rest =>
      match outcome_of (net k city) with
      | Thrown error => [LogError city error]
      | NoResult => []
      | Geocoded lat lon => [LogAdded city lat lon]
      end ++ cycle_log net (S k) rest
  end.

(** The radius of the globe: [new THREE.SphereGeometry(1, 256, 256)]. *)
Definition globe_radius : number := Num 1.

(** The most recent cycle. *)
Definition latest (st : State) : nat := pred (length (tasks st)).

(** No call of [geocodeAndAddMarkers] is in flight. *)
Definition idle (st : State) : bool := forallb (fun t => negb (in_flight t)) (tasks st).

(** [es] starts no cycle while another is in flight. *)
Fixpoint sequential (es : list event) (st : State) : bool :=
  match es with
  | [] => true
  | e :: es' =>
      (match e with Refresh => idle st | _ => true end)
      && match step e st with
         | Some st' => sequential es' st'
         | None => true
         end
  end.

(** Marker [m] stands for one geocoded location of cycle [c]: it has one
    placement, made by [c] for a location that [c] looked up, and sits
    where the coordinates found for that location project to. *)
Definition marker_of_cycle (st : State) (c : nat) (m : Mesh) : Prop :=
  ∃ p, filter (fun q => p_marker q = mesh_id m) (placed st) = [p]
       ∧ p_cycle p = c
       ∧ (c, p_city p) ∈ requests st
       ∧ position m = latLonToVector3 (p_lat p) (p_lon p) (Num 1.005).

(** Cycle [c] looked up the location of placement [p]. *)
Definition looked_up (st : State) (p : placement) : Prop :=
  (p_cycle p, p_city p) ∈ requests st.

(** What holds of the scene in every state: the globe's children are the
    stored markers, distinct objects made before the counter's value, and
    the placements name distinct, existing objects and looked-up
    locations. *)
Record scene_ok (st : State) : Prop := mk_scene_ok {
  children_are_markers : globe_children st = markers st;
  markers_distinct : NoDup (mesh_id <$> markers st);
  markers_below : ∀ m, m ∈ markers st → mesh_id m < next_id st;
  placed_below : ∀ p, p ∈ placed st → p_marker p < next_id st;
  placed_looked_up : ∀ p, p ∈ placed st → looked_up st p;
  pending_looked_up :
    ∀ tid t city, tasks st !! tid = Some t →
      (at_point t = AwaitFetch city ∨ ∃ body, at_point t = AwaitJson city body) →
      (tid, city) ∈ requests st;
}.

(** What holds besides when no two cycles overlap: only the most recent
    cycle can be in flight, and the store holds its markers only. *)
Record cycles_ok (st : State) : Prop := mk_cycles_ok {
  only_latest_in_flight :
    ∀ tid t, tasks st !! tid = Some t → in_flight t = true → tid = latest st;
  markers_of_latest :
    ∀ m, m ∈ markers st → marker_of_cycle st (latest st) m ;
}.

(** ** The fields of [settings] *)

(** The properties the object literal of [settings] gives it. *)
Definition literal_fields : list string :=
  ["backgroundColor"; "markerColor"; "markerSize"; "locations";
   "shadowOpacity"; "shadowSize"; "shadowPosition"].

(** The two properties that only the light sliders assign. *)
Definition light_fields : list string :=
  ["ambientLightIntensity"; "directionalLightIntensity"].

(** The property of [settings] that the handler of an event assigns or
    changes in place, if any. *)
Definition written_by (e : event) : option string :=
  match e with
  | BgColorInput _ => Some "backgroundColor"
  | MarkerColorInput _ => Some "markerColor"
  | MarkerSizeInput _ => Some "markerSize"
  | AmbientLightInput _ => Some "ambientLightIntensity"
  | DirectionalLightInput _ => Some "directionalLightIntensity"
  | ShadowOpacityInput _ => Some "shadowOpacity"
  | ShadowSizeInput _ => Some "shadowSize"
  | ShadowPositionInput _ => Some "shadowPosition"
  | AddLocationClick _ | RemoveLocationClick _ => Some "locations"
  | Refresh | FetchSettled _ _ | JsonSettled _ | TimerFired _ => None
  end.

(** An array of strings. *)
Definition is_names (v : value) : Prop :=
  ∃ l : list string, v = VArray (VString <$> l).

(** ** Scenarios *)

(** The program with another list of locations. *)
Definition with_locations (names : list string) : State :=
  set_setting "locations" (VArray (VString <$> names)) init.

(** One search result, as the geocoding service gives it. *)
Definition result (lat lon : string) : value :=
  VObject [("lat", VString lat); ("lon", VString lon)].

(** Every [fetch] is rejected. *)
Definition offline : network :=
  fun _ _ => FetchRejected "TypeError: Failed to fetch".

(** Every lookup finds nothing: the response is the empty array. *)
Definition nothing_found : network :=
  fun _ _ => FetchResolved (JsonResolved (VArray [])).

(** Every lookup finds one place. *)
Definition online : network :=
  fun _ _ => FetchResolved (JsonResolved (VArray [result "25.77" "-80.19"])).

(** The first lookup finds (40.0, -74.0), the others find nothing. *)
Definition first_only : network :=
  fun k _ =>
    match k with
    | O => FetchResolved (JsonResolved (VArray [result "40.0" "-74.0"]))
    | S _ => FetchResolved (JsonResolved (VArray []))
    end.

(** A second cycle is started while the first awaits its first lookup,
    which then succeeds. *)
Definition overlapping : list event :=
  [Refresh; Refresh;
   FetchSettled 0 (FetchResolved (JsonResolved (VArray [result "40.0" "-74.0"])));
   JsonSettled 0].

(** The state in which cycle 0, over the one location [X], awaits the body
    of a response whose result has the latitude [abc]. *)
Definition awaiting_unparsable : State :=
  mkState (settings (with_locations ["X"])) [] [] 0 []
    [mkTask 1 (AwaitJson (VString "X")
                 (JsonResolved (VArray [result "abc" "-74.0"]))) 0]
    [(0, VString "X")] [].

(** Every lookup gives an array whose one result is [null]. *)
Definition null_result : network :=
  fun _ _ => FetchResolved (JsonResolved (VArray [VNull])).

(** Every lookup gives one result whose [lat] is an object with a
    [toString] property of its own: [[{"lat": {"toString": null}, "lon":
    "-74.0"}]]. *)
Definition unconvertible : network :=
  fun _ _ =>
    FetchResolved (JsonResolved (VArray
      [VObject [("lat", VObject [("toString", VNull)]); ("lon", VString "-74.0")]])).

(** The turn from [st] to [st'] added a marker for [city] at the
    coordinates [(lat, lon)], wrote the confirmation, and left the call
    [tid] at its delay. *)
Definition marker_added (st st' : State) (tid : nat) (t : task) (city : value)
  (lat lon : number) : Prop :=
  ∃ m, markers st' = markers st ++ [m]
       ∧ globe_children st' = globe_children st ++ [m]
       ∧ position m = latLonToVector3 lat lon (Num 1.005)
       ∧ console st' = console st ++ [LogAdded city lat lon]
       ∧ tasks st' !! tid = Some (mkTask (iter_next t) (AwaitTimer city) (waited t)).

(** The turn from [st] to [st'] went through [catch]: no marker was added,
    the error was written, and the call [tid] went on without its delay. *)
Definition lookup_failed (st st' : State) (tid : nat) (t : task) (city : value)
  (error : string) : Prop :=
  markers st' = markers st
  ∧ globe_children st' = globe_children st
  ∧ console st' = console st ++ [LogError city error]
  ∧ ∃ t', tasks st' !! tid = Some t'
          ∧ waited t' = waited t
          ∧ ∀ c, at_point t' ≠ AwaitTimer c.

(** The projection as the specification words it, over the reals: the
    coordinates [(x, y, z)]. *)
Definition spec_projection (lat lon r : R) : R * R * R :=
  let phi := ((90 - lat) * PI / 180)%R in
  let theta := ((lon + 180) * PI / 180)%R in
  ((- r * sin phi * cos theta)%R, (r * cos phi)%R, (r * sin phi * sin theta)%R).

(** ** More of the program *)

(** The positions at which a cycle places its markers from position [k]
    on: one for each location that is geocoded. *)
Fixpoint cycle_positions (net : network) (k : nat) (locations : list value)
  : list Vector3 :=
  match locations with
  | [] => []
  | city :: rest =>
      match outcome_of (net k city) with
      | Geocoded lat lon => [latLonToVector3 lat lon (Num 1.005)]
      | _ => []
      end ++ cycle_positions net (S k) rest
  end.

(** The values of the characters of [s] as hexadecimal digits, when all of
    them are. *)
Fixpoint hex_digits (s : string) : option (list Z) :=
  match s with
  | EmptyString => Some []
  | String c s' =>
      match Str.digit_of 16 c, hex_digits s' with
      | Some d, Some ds => Some (d :: ds)
      | _, _ => None
      end
  end.

(** The number that hexadecimal digits denote after the number [acc]. *)
Definition hex_value (acc : Z) (ds : list Z) : Z :=
  foldl (fun v d => (16 * v + d)%Z) acc ds.

(** A name as [addLocation] stores them: not empty, no white space at
    either end. *)
Definition trimmed (s : string) : Prop := s ≠ EmptyString ∧ Str.trim s = s.

(** What the handlers set in the renderer, the lights and the shadow
    plane: the colour last given to [renderer.setClearColor],
    [ambientLight.intensity], [directionalLight.intensity], [plane.scale]
    and [plane.position.y]. *)
Record View : Type := mkView {
  clear_color : value;
  ambient_intensity : value;
  directional_intensity : value;
  plane_scale : Vector3;
  plane_y : value;
}.

(** The side of the shadow plane's geometry, [settings.shadowSize] when the
    plane is made. *)
Definition plane_base : number := Num 5.

(** [renderer.setClearColor(0xffffff, 1.0)], the two lights of intensity
    1.5, the plane unscaled at [settings.shadowPosition]. *)
Definition initial_view : View :=
  mkView (VNumber (Num 16777215)) (VNumber (Num 1.5)) (VNumber (Num 1.5))
    (mkVector3 (Num 1) (Num 1) (Num 1)) (setting "shadowPosition" init).

(** What the handler of [e] does to the view after it has written
    [settings] (state [st]). *)
Definition view_handler (e : event) (st : State) (v : View) : View :=
  match e with
  | BgColorInput _ =>
      mkView (setting "backgroundColor" st) (ambient_intensity v)
        (directional_intensity v) (plane_scale v) (plane_y v)
  | AmbientLightInput _ =>
      mkView (clear_color v) (setting "ambientLightIntensity" st)
        (directional_intensity v) (plane_scale v) (plane_y v)
  | DirectionalLightInput _ =>
      mkView (clear_color v) (ambient_intensity v)
        (setting "directionalLightIntensity" st) (plane_scale v) (plane_y v)
  | ShadowSizeInput _ =>
      match Val.to_number (setting "shadowSize" st) with
      | Normal size =>
          let scale := (size / Num 5)%js in
          mkView (clear_color v) (ambient_intensity v) (directional_intensity v)
            (mkVector3 scale scale scale) (plane_y v)
      | Throw _ => v
      end
  | ShadowPositionInput _ =>
      mkView (clear_color v) (ambient_intensity v) (directional_intensity v)
        (plane_scale v) (setting "shadowPosition" st)
  | _ => v
  end.

Definition step_view (e : event) (sv : State * View) : option (State * View) :=
  st' ← step e sv.1; Some (st', view_handler e st' sv.2).

Fixpoint run_view (es : list event) (sv : State * View) : option (State * View) :=
  match es with
  | [] => Some sv
  | e :: es' => sv' ← step_view e sv; run_view es' sv'
  end.

(** The view shows what [settings] holds: the clear colour, the shadow's
    height, the two intensities (1.5 until their slider is moved) and a
    plane whose scaled side is [settings.shadowSize]. *)
Definition view_ok (st : State) (v : View) : Prop :=
  clear_color v = setting "backgroundColor" st
  ∧ ambient_intensity v
    = default (VNumber (Num 1.5)) (settings st !! "ambientLightIntensity")
  ∧ directional_intensity v
    = default (VNumber (Num 1.5)) (settings st !! "directionalLightIntensity")
  ∧ plane_y v = setting "shadowPosition" st
  ∧ ∃ s, plane_scale v = mkVector3 s s s
         ∧ Normal (s * plane_base)%js = Val.to_number (setting "shadowSize" st).

(** Marker [m] stands for one geocoded location of some cycle. *)
Definition marker_placed (st : State) (m : Mesh) : Prop :=
  ∃ c, marker_of_cycle st c m.

(** Every stored marker stands for a geocoded location. *)
Definition all_placed (st : State) : Prop :=
  ∀ m, m ∈ markers st → marker_placed st m.

(** * Properties *)

(** ** Arithmetic of [number] *)

Lemma div_Num (a b : R) : b ≠ 0%R → (Num a / Num b)%js = Num (a / b).
Proof. intros Hb. simpl. destruct (Req_EM_T b 0); [contradiction | reflexivity]. Qed.

Lemma PI_over_180 : (Math.PI / Num 180)%js = Num (PI / 180).
Proof. apply div_Num. lra. Qed.

Lemma mul_NaN_l (x : number) : (NaN * x)%js = NaN.
Proof. destruct x; reflexivity. Qed.

Lemma mul_NaN_r (x : number) : (x * NaN)%js = NaN.
Proof. destruct x; reflexivity. Qed.

Lemma sqrt_Num (r : R) : (0 <= r)%R → Math.sqrt (Num r) = Num (sqrt r).
Proof. intros Hr. simpl. destruct (Rlt_dec r 0); [lra | reflexivity]. Qed.

(** On finite arguments the projection is a finite point. *)
Lemma latLonToVector3_Num (lat lon r : R) :
  latLonToVector3 (Num lat) (Num lon) (Num r) =
    mkVector3
      (Num (- (r * sin ((90 - lat) * (PI / 180)) * cos ((lon + 180) * (PI / 180)))))
      (Num (r * cos ((90 - lat) * (PI / 180))))
      (Num (r * sin ((90 - lat) * (PI / 180)) * sin ((lon + 180) * (PI / 180)))).
Proof. unfold latLonToVector3. rewrite PI_over_180. reflexivity. Qed.

Lemma vector3_eq (a b c a' b' c' : R) :
  a = a' → b = b' → c = c' →
  mkVector3 (Num a) (Num b) (Num c) = mkVector3 (Num a') (Num b') (Num c').
Proof. intros -> -> ->. reflexivity. Qed.

(** ** The parsing builtins on examples *)

Example parseFloat_ex1 : Str.parseFloat "40.0" = Num (400 / 10).
Proof. reflexivity. Qed.
Example parseFloat_ex2 : Str.parseFloat "  -74.0xyz" = Num (-740 / 10).
Proof. reflexivity. Qed.
Example parseFloat_ex3 : Str.parseFloat "abc" = NaN.
Proof. reflexivity. Qed.
Example parseFloat_ex4 : Str.parseFloat "1e3" = Num 1000.
Proof. reflexivity. Qed.
Example parseFloat_ex5 : Str.parseFloat ".5e-1x" = Num (5 / 100).
Proof. reflexivity. Qed.
Example parseFloat_ex6 : Str.parseFloat "-Infinityx" = NegInf.
Proof. reflexivity. Qed.
Example parseFloat_ex7 : Str.parseFloat "5.e" = Num 5.
Proof. reflexivity. Qed.
Example parseFloat_ex8 : Str.parseFloat "." = NaN.
Proof. reflexivity. Qed.
Example parseInt_ex1 : Str.parseInt (Str.replace_first "#" "0x" "#ff0000") = Num 16711680.
Proof. reflexivity. Qed.
Example parseInt_ex2 : Str.parseInt "0xffffffffffffffff" = Num 18446744073709551616.
Proof. reflexivity. Qed.
Example parseInt_ex3 : Str.parseInt "0x20000000000001" = Num 9007199254740992.
Proof. reflexivity. Qed.
Example parseInt_ex4 : Str.parseInt "0x20000000000003" = Num 9007199254740996.
Proof. reflexivity. Qed.
Example parseInt_ex5 : Str.parseInt "-12px" = Num (-12).
Proof. reflexivity. Qed.
Example to_number_ex1 : Str.to_number " 12 " = Num 12.
Proof. reflexivity. Qed.
Example to_number_ex2 : Str.to_number "12px" = NaN.
Proof. reflexivity. Qed.
Example to_number_ex3 : Str.to_number "0x10" = Num 16.
Proof. reflexivity. Qed.
Example to_number_ex4 : Val.to_number (VArray [VString "5"]) = Normal (Num 5).
Proof. reflexivity. Qed.
Example to_number_ex5 :
  Val.to_number (VArray [VNumber (Num 1); VNumber (Num 2)]) = Normal NaN.
Proof. reflexivity. Qed.
Example to_number_ex6 : Val.to_number (VObject [("length", VNumber (Num 1))]) = Normal NaN.
Proof. reflexivity. Qed.
Example to_number_ex7 : Val.to_number (VObject [("toString", VNull)]) = Throw "TypeError".
Proof. reflexivity. Qed.
Example parseFloat_ex9 : Val.parseFloat VUndefined = Normal NaN.
Proof. reflexivity. Qed.
Example parseFloat_ex10 : Val.parseFloat (VArray [VString "7"; VNull]) = Normal (Num 7).
Proof. reflexivity. Qed.
Example parseFloat_ex11 : Val.parseFloat (VObject [("valueOf", VNull)]) = Normal NaN.
Proof. reflexivity. Qed.
Example parseFloat_ex12 : Val.parseFloat (VObject [("toString", VNull)]) = Throw "TypeError".
Proof. reflexivity. Qed.
Example parseFloat_ex13 :
  Val.parseFloat (VArray [VString "7"; VObject [("toString", VString "x")]])
  = Throw "TypeError".
Proof. reflexivity. Qed.
Example trim_ex1 : Str.trim "  Rio de Janeiro  " = "Rio de Janeiro".
Proof. reflexivity. Qed.

(** ** The projection *)

(** C4: for all real [lat], [lon] and [r], with no condition on their
    ranges, [latLonToVector3] returns the point with
    [phi = (90 - lat) * pi / 180], [theta = (lon + 180) * pi / 180],
    [x = -r sin phi cos theta], [y = r cos phi], [z = r sin phi sin theta]. *)
Theorem latLonToVector3_formula (lat lon r : R) :
  latLonToVector3 (Num lat) (Num lon) (Num r) =
    let '(x, y, z) := spec_projection lat lon r in
    mkVector3 (Num x) (Num y) (Num z).
Proof.
  rewrite latLonToVector3_Num. unfold spec_projection.
  replace ((90 - lat) * PI / 180)%R with ((90 - lat) * (PI / 180))%R by field.
  replace ((lon + 180) * PI / 180)%R with ((lon + 180) * (PI / 180))%R by field.
  apply vector3_eq; ring.
Qed.

Lemma length_latLonToVector3 (lat lon r : R) :
  (0 <= r)%R → THREE.length (latLonToVector3 (Num lat) (Num lon) (Num r)) = Num r.
Proof.
  intros Hr. rewrite latLonToVector3_Num. unfold THREE.length. cbn [THREE.x THREE.y THREE.z mul add].
  set (phi := ((90 - lat) * (PI / 180))%R). set (theta := ((lon + 180) * (PI / 180))%R).
  assert (Hsq : (- (r * sin phi * cos theta) * - (r * sin phi * cos theta)
                 + r * cos phi * (r * cos phi)
                 + r * sin phi * sin theta * (r * sin phi * sin theta) = r * r)%R).
  { pose proof (sin2_cos2 phi) as Hp. pose proof (sin2_cos2 theta) as Ht.
    unfold Rsqr in Hp, Ht.
    transitivity (r * r * (sin phi * sin phi * (sin theta * sin theta + cos theta * cos theta)
                           + cos phi * cos phi))%R; [ring |].
    rewrite Ht. rewrite Rmult_1_r. rewrite Hp. ring. }
  rewrite Hsq. rewrite sqrt_Num by nra. f_equal. apply sqrt_square. exact Hr.
Qed.

(** C5: for latitude in [-90, 90], longitude in [-180, 180] and a positive
    radius, the projected point lies at distance [radius] from the origin
    (exactly, numbers being exact reals). *)
Theorem latLonToVector3_on_sphere (lat lon r : R) :
  (-90 <= lat <= 90)%R → (-180 <= lon <= 180)%R → (0 < r)%R →
  THREE.length (latLonToVector3 (Num lat) (Num lon) (Num r)) = Num r.
Proof. intros _ _ Hr. apply length_latLonToVector3. lra. Qed.

Lemma latLonToVector3_on_sphere_witness :
  THREE.length (latLonToVector3 (Num 40) (Num (-74)) (Num 1.005)) = Num 1.005.
Proof. apply (latLonToVector3_on_sphere 40 (-74) 1.005); lra. Defined.

Lemma latLonToVector3_pole (lon r : R) :
  latLonToVector3 (Num 90) (Num lon) (Num r) = mkVector3 (Num 0) (Num r) (Num 0).
Proof.
  rewrite latLonToVector3_Num.
  replace ((90 - 90) * (PI / 180))%R with 0%R by lra.
  rewrite sin_0, cos_0. apply vector3_eq; ring.
Qed.

Lemma latLonToVector3_equator_0 (r : R) :
  latLonToVector3 (Num 0) (Num 0) (Num r) = mkVector3 (Num r) (Num 0) (Num 0).
Proof.
  rewrite latLonToVector3_Num.
  replace ((90 - 0) * (PI / 180))%R with (PI / 2)%R by lra.
  replace ((0 + 180) * (PI / 180))%R with PI by lra.
  rewrite sin_PI2, cos_PI2, sin_PI, cos_PI. apply vector3_eq; ring.
Qed.

Lemma latLonToVector3_equator_90 (r : R) :
  latLonToVector3 (Num 0) (Num 90) (Num r) = mkVector3 (Num 0) (Num 0) (Num (- r)).
Proof.
  rewrite latLonToVector3_Num.
  replace ((90 - 0) * (PI / 180))%R with (PI / 2)%R by lra.
  replace ((90 + 180) * (PI / 180))%R with (3 * (PI / 2))%R by lra.
  rewrite sin_PI2, cos_PI2, sin_3PI2, cos_3PI2. apply vector3_eq; ring.
Qed.

(** C6, as the code has it: latitude 90 gives [(0, r, 0)] for every
    longitude; latitude 0, longitude 0 gives [(r, 0, 0)]; latitude 0,
    longitude 90 gives [(0, 0, -r)]. *)
Theorem latLonToVector3_fixed_points (r : R) :
  (∀ lon : R, latLonToVector3 (Num 90) (Num lon) (Num r) = mkVector3 (Num 0) (Num r) (Num 0))
  ∧ latLonToVector3 (Num 0) (Num 0) (Num r) = mkVector3 (Num r) (Num 0) (Num 0)
  ∧ latLonToVector3 (Num 0) (Num 90) (Num r) = mkVector3 (Num 0) (Num 0) (Num (- r)).
Proof.
  split; [| split].
  - intros lon. apply latLonToVector3_pole.
  - apply latLonToVector3_equator_0.
  - apply latLonToVector3_equator_90.
Qed.

(** C6 as stated fails: it is not so that, for every radius, latitude 0
    and longitude 0 give [(-r, 0, 0)] and latitude 0 and longitude 90 give
    [(0, 0, r)]; radius 1 shows it. *)
Lemma latLonToVector3_fixed_points_as_stated_fail :
  ¬ (∀ r : R,
       (∀ lon : R,
          latLonToVector3 (Num 90) (Num lon) (Num r) = mkVector3 (Num 0) (Num r) (Num 0))
       ∧ latLonToVector3 (Num 0) (Num 0) (Num r) = mkVector3 (Num (- r)) (Num 0) (Num 0)
       ∧ latLonToVector3 (Num 0) (Num 90) (Num r) = mkVector3 (Num 0) (Num 0) (Num r)).
Proof.
  intros H. destruct (H 1%R) as (_ & H0 & _).
  rewrite latLonToVector3_equator_0 in H0. inversion H0. lra.
Qed.

(** ** The marker store *)

(** On finite coordinates the normal used by [addMarker] is the unit
    vector through the marker: the projection at radius 1. *)
Lemma normalize_latLonToVector3 (lat lon : R) :
  THREE.normalize (latLonToVector3 (Num lat) (Num lon) (Num 1.005)) =
    latLonToVector3 (Num lat) (Num lon) (Num 1).
Proof.
  unfold THREE.normalize. rewrite length_latLonToVector3 by lra.
  unfold or_else, number_truthy. destruct (Req_EM_T 1.005 0) as [H | _]; [lra |].
  unfold THREE.divideScalar. rewrite div_Num by lra.
  rewrite !latLonToVector3_Num. unfold THREE.multiplyScalar. cbn [THREE.x THREE.y THREE.z mul].
  apply vector3_eq; lra.
Qed.

(** The projection at radius [r] is [r] times the projection at radius 1. *)
Lemma latLonToVector3_scale (lat lon r : R) :
  THREE.multiplyScalar (latLonToVector3 (Num lat) (Num lon) (Num 1)) (Num r)
  = latLonToVector3 (Num lat) (Num lon) (Num r).
Proof.
  rewrite !latLonToVector3_Num. unfold THREE.multiplyScalar. cbn [THREE.x THREE.y THREE.z mul].
  apply vector3_eq; ring.
Qed.



Lemma remove_child_ids_sublist (m : Mesh) (cs : list Mesh) :
  sublist (mesh_id <$> remove_child m cs) (mesh_id <$> cs).
Proof.
  induction cs as [| c cs IH]; cbn; [done |].
  case_decide; cbn; [by apply sublist_cons | by apply sublist_skip].
Qed.

Lemma remove_child_gone (m : Mesh) (cs : list Mesh) :
  NoDup (mesh_id <$> cs) → mesh_id m ∉ mesh_id <$> remove_child m cs.
Proof.
  induction cs as [| c cs IH]; cbn; [intros _; apply not_elem_of_nil |].
  intros [Hc Hcs]%NoDup_cons. case_decide as Hid.
  - by rewrite <- Hid.
  - cbn. apply not_elem_of_cons. split; [congruence | by apply IH].
Qed.

Lemma remove_all_ids_sublist (ms cs : list Mesh) :
  sublist (mesh_id <$> remove_all ms cs) (mesh_id <$> cs).
Proof.
  revert cs. induction ms as [| m ms IH]; intros cs; cbn; [done |].
  etransitivity; [apply IH | apply remove_child_ids_sublist].
Qed.

Lemma remove_all_gone (ms cs : list Mesh) (m : Mesh) :
  NoDup (mesh_id <$> cs) → m ∈ ms → mesh_id m ∉ mesh_id <$> remove_all ms cs.
Proof.
  revert cs. induction ms as [| m' ms IH]; intros cs Hnd Hm; [by apply elem_of_nil in Hm |].
  cbn. apply elem_of_cons in Hm as [-> | Hm].
  - intros Hin. eapply (remove_child_gone m' cs Hnd).
    eapply elem_of_sublist; [exact Hin | apply remove_all_ids_sublist].
  - apply IH; [| done].
    eapply sublist_NoDup; [done | apply remove_child_ids_sublist].
Qed.

(** Removing a list of distinct children from itself leaves nothing. *)
Lemma remove_all_self (ms rest : list Mesh) :
  NoDup (mesh_id <$> ms ++ rest) → remove_all ms (ms ++ rest) = rest.
Proof.
  revert rest. induction ms as [| m ms IH]; intros rest Hnd; cbn; [done |].
  case_decide; [| done]. apply IH.
  cbn in Hnd. by apply NoDup_cons in Hnd as [_ ?].
Qed.

(** ** The event loop and the loop of a cycle *)

Lemma run_app (es1 es2 : list event) (st : State) :
  run (es1 ++ es2) st = run es1 st ≫= run es2.
Proof.
  revert st. induction es1 as [| e es1 IH]; intros st; cbn; [done |].
  destruct (step e st) as [st' |]; cbn; [apply IH | done].
Qed.

Lemma tasks_set_task (tid : nat) (t : task) (st : State) :
  tid < length (tasks st) → tasks (set_task tid t st) !! tid = Some t.
Proof. intros Hlt. cbn. by apply list_lookup_insert_eq. Qed.

Lemma set_task_set_task (tid : nat) (t t' : task) (st : State) :
  set_task tid t' (set_task tid t st) = set_task tid t' st.
Proof. unfold set_task, with_tasks. cbn. by rewrite list_insert_insert_eq. Qed.

Lemma step_fetch (tid : nat) (r : fetch_result) (st : State) (t : task) (city : value) :
  tasks st !! tid = Some t → at_point t = AwaitFetch city →
  step (FetchSettled tid r) st = Some (after_fetch tid t city r st).
Proof. intros Ht Hp. cbn. rewrite Ht. cbn. by rewrite Hp. Qed.

Lemma step_json (tid : nat) (st : State) (t : task) (city : value) (body : json_result) :
  tasks st !! tid = Some t → at_point t = AwaitJson city body →
  step (JsonSettled tid) st = Some (after_json tid t city body st).
Proof. intros Ht Hp. cbn. rewrite Ht. cbn. by rewrite Hp. Qed.

Lemma step_timer (tid : nat) (st : State) (t : task) (city : value) :
  tasks st !! tid = Some t → at_point t = AwaitTimer city →
  step (TimerFired tid) st = Some (after_timer tid t st).
Proof. intros Ht Hp. cbn. rewrite Ht. cbn. by rewrite Hp. Qed.

(** The loop overwrites the slot of its call, whatever stood there. *)
Lemma cycle_from_set_task (net : network) (tid : nat) (locs : list value) :
  ∀ (k w : nat) (t : task) (st : State),
    cycle_from net tid k w locs (set_task tid t st) = cycle_from net tid k w locs st.
Proof.
  induction locs as [| city rest IH]; intros k w t st; cbn [cycle_from].
  - apply set_task_set_task.
  - destruct (outcome_of (net k city)) as [error | | lat lon].
    + apply (IH (S k) w t
               (with_console
                  (console st ++ [LogError city error])
                  (with_requests (requests st ++ [(tid, city)]) st))).
    + apply (IH (S k) (w + 1000) t (with_requests (requests st ++ [(tid, city)]) st)).
    + apply (IH (S k) (w + 1000) t
               (place_marker tid k city lat lon
                  (with_requests (requests st ++ [(tid, city)]) st))).
Qed.

Lemma drop_cons_lookup {A} (l : list A) (k : nat) (x : A) (rest : list A) :
  drop k l = x :: rest → l !! k = Some x ∧ drop (S k) l = rest.
Proof.
  intros Hd. split.
  - rewrite <- (Nat.add_0_r k). rewrite <- lookup_drop. by rewrite Hd.
  - rewrite <- (Nat.add_1_l k), Nat.add_comm. rewrite <- drop_drop. by rewrite Hd.
Qed.

Lemma drop_nil_lookup {A} (l : list A) (k : nat) : drop k l = [] → l !! k = None.
Proof.
  intros Hd. apply lookup_ge_None.
  pose proof (length_drop l k) as Hl. rewrite Hd in Hl. cbn in Hl. lia.
Qed.

(** The events of a cycle on its own take the event loop through exactly
    the iterations of the loop. *)
Lemma run_cycle_events (net : network) (tid : nat) (l : list value) :
  ∀ (locs : list value) (k w : nat) (st : State),
    setting "locations" st = VArray l → drop k l = locs → tid < length (tasks st) →
    run (cycle_events net tid k locs) (loop_head tid k w st)
    = Some (cycle_from net tid k w locs st).
Proof.
  induction locs as [| city rest IH]; intros k w st Hloc Hdrop Htid.
  - cbn. unfold loop_head. rewrite Hloc. cbn. by rewrite (drop_nil_lookup _ _ Hdrop).
  - apply drop_cons_lookup in Hdrop as [Hk Hrest].
    cbn [cycle_events cycle_from]. rewrite run_app.
    unfold loop_head at 1. rewrite Hloc. cbn [iterate]. rewrite Hk.
    set (t1 := mkTask (S k) (AwaitFetch city) w).
    set (st1 := with_requests (requests st ++ [(tid, city)]) st).
    change (with_requests (requests st ++ [(tid, city)]) (set_task tid t1 st))
      with (set_task tid t1 st1).
    assert (Ht1 : tasks (set_task tid t1 st1) !! tid = Some t1)
      by (by apply tasks_set_task).
    unfold outcome_of, iteration_events.
    destruct (net k city) as [error | [error | data]] eqn:Hnet.
    + cbn [run]. rewrite (step_fetch _ _ _ _ _ Ht1 eq_refl). cbn [mbind option_bind].
      unfold after_fetch, catch_error. cbn [iter_next waited t1].
      rewrite IH; [| done | done | by cbn; rewrite length_insert].
      f_equal.
      apply (cycle_from_set_task net tid rest (S k) w t1
               (with_console (console st1 ++ [LogError city error]) st1)).
    + cbn [run]. rewrite (step_fetch _ _ _ _ _ Ht1 eq_refl). cbn [mbind option_bind].
      unfold after_fetch. cbn [iter_next waited t1].
      set (t2 := mkTask (S k) (AwaitJson city (JsonRejected error)) w).
      rewrite set_task_set_task.
      rewrite (step_json tid (set_task tid t2 st1) t2 city (JsonRejected error));
        [| by apply tasks_set_task | done].
      cbn [mbind option_bind]. unfold after_json, catch_error. cbn [iter_next waited t2].
      rewrite IH; [| done | done | by cbn; rewrite length_insert].
      f_equal.
      apply (cycle_from_set_task net tid rest (S k) w t2
               (with_console (console st1 ++ [LogError city error]) st1)).
    + set (t2 := mkTask (S k) (AwaitJson city (JsonResolved data)) w).
      set (t3 := mkTask (S k) (AwaitTimer city) w).
      assert (Hf : step (FetchSettled tid (FetchResolved (JsonResolved data)))
                     (set_task tid t1 st1) = Some (set_task tid t2 st1)).
      { rewrite (step_fetch _ _ _ _ _ Ht1 eq_refl). unfold after_fetch.
        cbn [iter_next waited t1]. by rewrite set_task_set_task. }
      assert (Hj : step (JsonSettled tid) (set_task tid t2 st1)
                   = Some (after_json tid t2 city (JsonResolved data) (set_task tid t2 st1))).
      { apply step_json; [by apply tasks_set_task | done]. }
      unfold after_json in Hj. cbn [iter_next waited t2] in Hj.
      destruct (geocoded data) as [[[lat lon] |] | error].
      * cbn [run]. rewrite Hf. cbn [mbind option_bind]. rewrite Hj. cbn [mbind option_bind].
        change (place_marker tid (pred (S k)) city lat lon (set_task tid t2 st1))
          with (set_task tid t2 (place_marker tid k city lat lon st1)).
        rewrite set_task_set_task.
        rewrite (step_timer tid _ t3 city); [| by apply tasks_set_task | done].
        cbn [mbind option_bind]. unfold after_timer. cbn [iter_next waited t3].
        rewrite IH; [| done | done | by cbn; rewrite length_insert].
        f_equal.
        apply (cycle_from_set_task net tid rest (S k) (w + 1000) t3
                 (place_marker tid k city lat lon st1)).
      * cbn [run]. rewrite Hf. cbn [mbind option_bind]. rewrite Hj. cbn [mbind option_bind].
        rewrite set_task_set_task.
        rewrite (step_timer tid _ t3 city); [| by apply tasks_set_task | done].
        cbn [mbind option_bind]. unfold after_timer. cbn [iter_next waited t3].
        rewrite IH; [| done | done | by cbn; rewrite length_insert].
        f_equal.
        apply (cycle_from_set_task net tid rest (S k) (w + 1000) t3 st1).
      * cbn [run]. rewrite Hf. cbn [mbind option_bind]. rewrite Hj. cbn [mbind option_bind].
        unfold catch_error. cbn [iter_next waited t2].
        rewrite IH; [| done | done | by cbn; rewrite length_insert].
        f_equal.
        apply (cycle_from_set_task net tid rest (S k) w t2
                 (with_console (console st1 ++ [LogError city error]) st1)).
Qed.

(** A cycle on its own runs to its end, through every location. *)
Lemma run_cycle_result (net : network) (l : list value) (st : State) :
  setting "locations" st = VArray l →
  run_cycle net l st = Some (cycle_result net l st).
Proof.
  intros Hloc. unfold run_cycle, cycle_result. cbn [run step mbind option_bind].
  unfold geocodeAndAddMarkers. cbn [tasks clearMarkers].
  apply (run_cycle_events net (length (tasks st)) l l 0 0); [done | done |].
  cbn. rewrite length_app. cbn. lia.
Qed.

(** ** What holds in every state *)

Lemma loop_head_cases (tid i w : nat) (st : State) :
  (∃ city,
     loop_head tid i w st =
       with_requests (requests st ++ [(tid, city)])
         (set_task tid (mkTask (S i) (AwaitFetch city) w) st))
  ∨ (∃ t, loop_head tid i w st = set_task tid t st ∧ in_flight t = false).
Proof.
  unfold loop_head. destruct (iterate (setting "locations" st) i) as [[city |] | error].
  - left. by exists city.
  - right. by eexists.
  - right. by eexists.
Qed.

Lemma lookup_set_task (tid tid' : nat) (t t' : task) (st : State) :
  tasks (set_task tid t st) !! tid' = Some t' →
  (tid' = tid ∧ t' = t) ∨ (tid' ≠ tid ∧ tasks st !! tid' = Some t').
Proof.
  cbn. intros [(-> & -> & _) | (Hne & Hl)]%list_lookup_insert_Some; [by left | right].
  split; [congruence | done].
Qed.

Lemma not_in_flight_pending (t : task) (city : value) :
  in_flight t = false →
  ¬ (at_point t = AwaitFetch city ∨ ∃ body, at_point t = AwaitJson city body).
Proof. unfold in_flight. intros Hf [H | [body H]]; rewrite H in Hf; discriminate. Qed.

(** [scene_ok] under the operations of the program. *)

Lemma scene_ok_with_settings (s : gmap string value) (st : State) :
  scene_ok st → scene_ok (with_settings s st).
Proof. intros []. by constructor. Qed.

Lemma scene_ok_with_console (c : list log_entry) (st : State) :
  scene_ok st → scene_ok (with_console c st).
Proof. intros []. by constructor. Qed.

Lemma scene_ok_set_task (tid : nat) (t : task) (st : State) :
  (∀ city, (at_point t = AwaitFetch city ∨ ∃ body, at_point t = AwaitJson city body) →
           (tid, city) ∈ requests st) →
  scene_ok st → scene_ok (set_task tid t st).
Proof.
  intros Ht [Hch Hnd Hmb Hpb Hpl Hpe]. constructor; try done.
  intros tid' t' city [[-> ->] | [_ Hl]]%lookup_set_task Hp; [by apply Ht | eauto].
Qed.

Lemma scene_ok_loop_head (tid i w : nat) (st : State) :
  scene_ok st → scene_ok (loop_head tid i w st).
Proof.
  intros Hok. destruct (loop_head_cases tid i w st) as [[city ->] | (t & -> & Hf)].
  - destruct Hok as [Hch Hnd Hmb Hpb Hpl Hpe]. constructor; try done.
    + intros p Hp. unfold looked_up. cbn. apply elem_of_app. left. by apply Hpl.
    + intros tid' t' c [[-> ->] | [_ Hl]]%lookup_set_task Hp; cbn; apply elem_of_app.
      * right. destruct Hp as [Hp | [body Hp]]; cbn in Hp; [| done].
        injection Hp as ->. by apply list_elem_of_singleton.
      * left. eauto.
  - apply scene_ok_set_task; [| done].
    intros city Hp. by apply not_in_flight_pending in Hp.
Qed.

Lemma scene_ok_clearMarkers (st : State) : scene_ok st → scene_ok (clearMarkers st).
Proof.
  intros [Hch Hnd Hmb Hpb Hpl Hpe]. constructor; cbn; try done.
  - rewrite Hch.
    pose proof (remove_all_self (markers st) []) as Hself.
    rewrite app_nil_r in Hself. by apply Hself.
  - constructor.
  - intros m Hm. by apply elem_of_nil in Hm.
Qed.

Lemma scene_ok_place_marker (tid index : nat) (city : value) (lat lon : number)
  (st : State) :
  (tid, city) ∈ requests st → scene_ok st →
  scene_ok (place_marker tid index city lat lon st).
Proof.
  intros Hreq [Hch Hnd Hmb Hpb Hpl Hpe]. constructor; cbn.
  - by rewrite Hch.
  - rewrite fmap_app. cbn. apply NoDup_app. split; [done |]. split.
    + intros x Hx ->%list_elem_of_singleton.
      apply list_elem_of_fmap in Hx as (m & Heq & Hm). apply Hmb in Hm. lia.
    + apply NoDup_singleton.
  - intros m [Hm | ->%list_elem_of_singleton]%elem_of_app; [apply Hmb in Hm; lia |].
    cbn. lia.
  - intros p [Hp | ->%list_elem_of_singleton]%elem_of_app; [apply Hpb in Hp; lia |].
    cbn. lia.
  - intros p [Hp | ->%list_elem_of_singleton]%elem_of_app; [by apply Hpl |].
    done.
  - done.
Qed.

Lemma scene_ok_push_task (t : task) (st : State) :
  in_flight t = false → scene_ok st → scene_ok (with_tasks (tasks st ++ [t]) st).
Proof.
  intros Hf [Hch Hnd Hmb Hpb Hpl Hpe]. constructor; try done.
  cbn. intros tid t' city [Hl | [_ Hl]]%lookup_app_Some Hp; [eauto |].
  apply list_lookup_singleton_Some in Hl as [_ <-].
  by apply not_in_flight_pending in Hp.
Qed.

Lemma scene_ok_catch_error (tid : nat) (t : task) (city : value) (error : string)
  (st : State) :
  scene_ok st → scene_ok (catch_error tid t city error st).
Proof. intros Hok. by apply scene_ok_loop_head, scene_ok_with_console. Qed.

Lemma scene_ok_addLocation (text : string) (st : State) :
  scene_ok st → scene_ok (addLocation text st).
Proof.
  intros Hok. unfold addLocation.
  destruct (negb _); [| done].
  destruct (setting "locations" st); try done. by apply scene_ok_with_settings.
Qed.

Lemma scene_ok_removeLocation (index : nat) (st : State) :
  scene_ok st → scene_ok (removeLocation index st).
Proof.
  intros Hok. unfold removeLocation.
  destruct (setting "locations" st); try done. by apply scene_ok_with_settings.
Qed.

(** Inversion of the three continuation steps. *)
Lemma step_continuation (e : event) (st st' : State) :
  step e st = Some st' →
  match e with
  | FetchSettled tid r =>
      ∃ t city, tasks st !! tid = Some t ∧ at_point t = AwaitFetch city
                ∧ st' = after_fetch tid t city r st
  | JsonSettled tid =>
      ∃ t city body, tasks st !! tid = Some t ∧ at_point t = AwaitJson city body
                     ∧ st' = after_json tid t city body st
  | TimerFired tid =>
      ∃ t city, tasks st !! tid = Some t ∧ at_point t = AwaitTimer city
                ∧ st' = after_timer tid t st
  | _ => True
  end.
Proof.
  destruct e; try done; cbn;
    destruct (tasks st !! tid) as [t |] eqn:Ht; cbn; try done;
    destruct (at_point t) eqn:Hp; try done; intros [= <-]; eauto 10.
Qed.

Lemma scene_ok_step (e : event) (st st' : State) :
  scene_ok st → step e st = Some st' → scene_ok st'.
Proof.
  intros Hok Hstep. pose proof (step_continuation e st st' Hstep) as Hc.
  destruct e; cbn in Hstep; try (injection Hstep as <-).
  - apply scene_ok_loop_head. apply scene_ok_push_task; [done |].
    by apply scene_ok_clearMarkers.
  - destruct Hc as (t & city & Ht & Hp & ->). unfold after_fetch.
    destruct r as [error | body]; [by apply scene_ok_catch_error |].
    apply scene_ok_set_task; [| done].
    intros c [[= <-] | [b [= <- _]]]; eapply (pending_looked_up st Hok); eauto.
  - destruct Hc as (t & city & body & Ht & Hp & ->). unfold after_json.
    assert (Hreq : (tid, city) ∈ requests st)
      by (eapply (pending_looked_up st Hok); eauto).
    destruct body as [error | data]; [by apply scene_ok_catch_error |].
    destruct (geocoded data) as [[[lat lon] |] | error].
    + apply scene_ok_set_task; [intros c [[=] | [b [=]]] |].
      by apply scene_ok_place_marker.
    + apply scene_ok_set_task; [intros c [[=] | [b [=]]] | done].
    + by apply scene_ok_catch_error.
  - destruct Hc as (t & city & Ht & Hp & ->). by apply scene_ok_loop_head.
  - by apply scene_ok_with_settings.
  - by apply scene_ok_with_settings.
  - by apply scene_ok_with_settings.
  - by apply scene_ok_with_settings.
  - by apply scene_ok_with_settings.
  - by apply scene_ok_with_settings.
  - by apply scene_ok_with_settings.
  - by apply scene_ok_with_settings.
  - by apply scene_ok_addLocation.
  - destruct (setting "locations" st); try done.
    case_decide; [| done]. injection Hstep as <-. by apply scene_ok_removeLocation.
Qed.

Lemma scene_ok_init : scene_ok init.
Proof.
  constructor; cbn; try done.
  - constructor.
  - intros m Hm. by apply elem_of_nil in Hm.
  - intros p Hp. by apply elem_of_nil in Hp.
  - intros p Hp. by apply elem_of_nil in Hp.
Qed.

Lemma scene_ok_run (es : list event) (st st' : State) :
  scene_ok st → run es st = Some st' → scene_ok st'.
Proof.
  revert st. induction es as [| e es IH]; intros st Hok Hrun; cbn in Hrun.
  - by injection Hrun as <-.
  - destruct (step e st) as [st1 |] eqn:Hstep; [| done].
    cbn in Hrun. eapply IH; [| done]. by eapply scene_ok_step.
Qed.

Lemma scene_ok_reachable (st : State) : reachable st → scene_ok st.
Proof. intros [es Hrun]. eapply scene_ok_run; [apply scene_ok_init | done]. Qed.

(** X2: in every state of the program the children of the globe are the
    stored markers, in the order they were added, and these are distinct
    objects. *)
Theorem globe_children_are_markers (st : State) :
  reachable st →
  globe_children st = markers st ∧ NoDup (mesh_id <$> markers st).
Proof.
  intros Hok%scene_ok_reachable.
  split; [apply (children_are_markers st Hok) | apply (markers_distinct st Hok)].
Qed.

(** [cycles_ok] under the operations of the program. *)

Lemma filter_none {A} (P : A → Prop) `{!∀ x, Decision (P x)} (l : list A) :
  (∀ x, x ∈ l → ¬ P x) → filter P l = [].
Proof.
  induction l as [| x l IH]; intros Hl; [done |].
  rewrite filter_cons_False; [| apply Hl; left].
  apply IH. intros y Hy. apply Hl. by right.
Qed.

Lemma filter_snoc_False {A} (P : A → Prop) `{!∀ x, Decision (P x)} (l : list A) (x : A) :
  ¬ P x → filter P (l ++ [x]) = filter P l.
Proof.
  intros Hx. rewrite filter_app, (filter_cons_False P x []) by done.
  by rewrite filter_nil, app_nil_r.
Qed.

Lemma filter_snoc_only {A} (P : A → Prop) `{!∀ x, Decision (P x)} (l : list A) (x : A) :
  (∀ y, y ∈ l → ¬ P y) → P x → filter P (l ++ [x]) = [x].
Proof.
  intros Hl Hx. rewrite filter_app, filter_none by done.
  by rewrite (filter_cons_True P x []), filter_nil.
Qed.

Lemma marker_of_cycle_mono (st st' : State) (c : nat) (m : Mesh) :
  placed st' = placed st → requests st ⊆ requests st' →
  marker_of_cycle st c m → marker_of_cycle st' c m.
Proof.
  intros Hpl Hreq (p & Hf & Hc & Hr & Hpos). exists p. rewrite Hpl. eauto.
Qed.

Lemma idle_not_in_flight (st : State) (tid : nat) (t : task) :
  idle st = true → tasks st !! tid = Some t → in_flight t = false.
Proof.
  unfold idle. rewrite forallb_forall. intros Hidle Ht.
  apply list_elem_of_lookup_2, list_elem_of_In, Hidle in Ht.
  by destruct (in_flight t).
Qed.

Lemma cycles_ok_same (st st' : State) :
  markers st' = markers st → placed st' = placed st → requests st ⊆ requests st' →
  length (tasks st') = length (tasks st) →
  (∀ tid t, tasks st' !! tid = Some t → in_flight t = true → tid = latest st) →
  cycles_ok st → cycles_ok st'.
Proof.
  intros Hm Hp Hr Hlen Ht [Hfl Hml].
  assert (Hlatest : latest st' = latest st) by (unfold latest; by rewrite Hlen).
  constructor.
  - intros tid t Hl Hf. rewrite Hlatest. eauto.
  - intros m Hin. rewrite Hlatest. rewrite Hm in Hin.
    eapply marker_of_cycle_mono; eauto.
Qed.

Lemma cycles_ok_with_settings (s : gmap string value) (st : State) :
  cycles_ok st → cycles_ok (with_settings s st).
Proof.
  intros Hok. apply (cycles_ok_same st); [done | done | reflexivity | done | | done].
  intros tid t Hl Hf. by eapply only_latest_in_flight.
Qed.

Lemma cycles_ok_with_console (c : list log_entry) (st : State) :
  cycles_ok st → cycles_ok (with_console c st).
Proof.
  intros Hok. apply (cycles_ok_same st); [done | done | reflexivity | done | | done].
  intros tid t Hl Hf. by eapply only_latest_in_flight.
Qed.

Lemma cycles_ok_set_task (tid : nat) (t : task) (st : State) :
  (in_flight t = true → tid = latest st) →
  cycles_ok st → cycles_ok (set_task tid t st).
Proof.
  intros Ht Hok. apply (cycles_ok_same st); [done | done | reflexivity | | | done].
  - cbn. apply length_insert.
  - intros tid' t' [[-> ->] | [_ Hl]]%lookup_set_task Hf; [auto |].
    by eapply only_latest_in_flight.
Qed.

Lemma cycles_ok_loop_head (tid i w : nat) (st : State) :
  tid = latest st → cycles_ok st → cycles_ok (loop_head tid i w st).
Proof.
  intros Htid Hok. destruct (loop_head_cases tid i w st) as [[city ->] | (t & -> & Hf)].
  - set (t := mkTask (S i) (AwaitFetch city) w).
    assert (Hok' : cycles_ok (set_task tid t st)) by (by apply cycles_ok_set_task).
    apply (cycles_ok_same (set_task tid t st)); [done | done | | done | | done].
    + cbn. intros x Hx. apply elem_of_app. by left.
    + intros tid' t' Hl Hf. by apply (only_latest_in_flight _ Hok' tid' t').
  - apply cycles_ok_set_task; [| done]. by rewrite Hf.
Qed.

Lemma cycles_ok_place_marker (index : nat) (city : value) (lat lon : number)
  (st : State) :
  (latest st, city) ∈ requests st → scene_ok st → cycles_ok st →
  cycles_ok (place_marker (latest st) index city lat lon st).
Proof.
  intros Hreq [Hch Hnd Hmb Hpb Hpl Hpe] [Hfl Hml]. constructor.
  - intros tid t Hl Hf. by apply (Hfl tid t).
  - change (latest (place_marker (latest st) index city lat lon st)) with (latest st).
    cbn. intros m [Hm | ->%list_elem_of_singleton]%elem_of_app.
    + destruct (Hml m Hm) as (p & Hf & Hc & Hr & Hpos).
      exists p. cbn. rewrite filter_snoc_False; [done |].
      cbn. apply Hmb in Hm. lia.
    + eexists. cbn. rewrite filter_snoc_only; [done | | done].
      intros p Hp Heq. apply Hpb in Hp. lia.
Qed.

Lemma cycles_ok_catch_error (tid : nat) (t : task) (city : value) (error : string)
  (st : State) :
  tid = latest st → cycles_ok st → cycles_ok (catch_error tid t city error st).
Proof.
  intros Htid Hok. apply cycles_ok_loop_head; [done |]. by apply cycles_ok_with_console.
Qed.

Lemma cycles_ok_refresh (st : State) :
  idle st = true → cycles_ok (geocodeAndAddMarkers st).
Proof.
  intros Hidle. unfold geocodeAndAddMarkers. cbn [tasks clearMarkers].
  set (st1 := with_tasks (tasks st ++ [mkTask 0 Returned 0]) (clearMarkers st)).
  assert (Hlatest : length (tasks st) = latest st1).
  { unfold latest, st1. cbn. rewrite length_app. cbn. lia. }
  apply cycles_ok_loop_head; [done |]. constructor.
  - intros tid t Hl Hf. cbn in Hl. apply lookup_app_Some in Hl as [Hl | [_ Hl]].
    + apply (idle_not_in_flight st tid t Hidle) in Hl. congruence.
    + apply list_lookup_singleton_Some in Hl as [_ <-]. done.
  - cbn. intros m Hm. by apply elem_of_nil in Hm.
Qed.

Lemma cycles_ok_addLocation (text : string) (st : State) :
  cycles_ok st → cycles_ok (addLocation text st).
Proof.
  intros Hok. unfold addLocation.
  destruct (negb _); [| done].
  destruct (setting "locations" st); try done. by apply cycles_ok_with_settings.
Qed.

Lemma cycles_ok_removeLocation (index : nat) (st : State) :
  cycles_ok st → cycles_ok (removeLocation index st).
Proof.
  intros Hok. unfold removeLocation.
  destruct (setting "locations" st); try done. by apply cycles_ok_with_settings.
Qed.

Lemma in_flight_at (t : task) :
  (∃ city, at_point t = AwaitFetch city) ∨ (∃ city body, at_point t = AwaitJson city body)
  ∨ (∃ city, at_point t = AwaitTimer city) → in_flight t = true.
Proof. unfold in_flight. intros [[? ->] | [(? & ? & ->) | [? ->]]]; done. Qed.

Lemma cycles_ok_step (e : event) (st st' : State) :
  scene_ok st → cycles_ok st →
  (e = Refresh → idle st = true) →
  step e st = Some st' → cycles_ok st'.
Proof.
  intros Hsc Hok Hseq Hstep. pose proof (step_continuation e st st' Hstep) as Hc.
  destruct e; cbn in Hstep; try (injection Hstep as <-).
  - by apply cycles_ok_refresh, Hseq.
  - destruct Hc as (t & city & Ht & Hp & ->).
    assert (Htid : tid = latest st).
    { eapply (only_latest_in_flight st Hok); [done |]. apply in_flight_at. eauto. }
    unfold after_fetch. destruct r as [error | body]; [by apply cycles_ok_catch_error |].
    by apply cycles_ok_set_task.
  - destruct Hc as (t & city & body & Ht & Hp & ->).
    assert (Htid : tid = latest st).
    { eapply (only_latest_in_flight st Hok); [done |]. apply in_flight_at. eauto 6. }
    assert (Hreq : (tid, city) ∈ requests st)
      by (eapply (pending_looked_up st Hsc); eauto).
    unfold after_json.
    destruct body as [error | data]; [by apply cycles_ok_catch_error |].
    destruct (geocoded data) as [[[lat lon] |] | error].
    + apply cycles_ok_set_task; [done |]. subst tid. by apply cycles_ok_place_marker.
    + by apply cycles_ok_set_task.
    + by apply cycles_ok_catch_error.
  - destruct Hc as (t & city & Ht & Hp & ->).
    assert (Htid : tid = latest st).
    { eapply (only_latest_in_flight st Hok); [done |]. apply in_flight_at. eauto 6. }
    by apply cycles_ok_loop_head.
  - by apply cycles_ok_with_settings.
  - by apply cycles_ok_with_settings.
  - by apply cycles_ok_with_settings.
  - by apply cycles_ok_with_settings.
  - by apply cycles_ok_with_settings.
  - by apply cycles_ok_with_settings.
  - by apply cycles_ok_with_settings.
  - by apply cycles_ok_with_settings.
  - by apply cycles_ok_addLocation.
  - destruct (setting "locations" st); try done.
    case_decide; [| done]. injection Hstep as <-. by apply cycles_ok_removeLocation.
Qed.

Lemma cycles_ok_init : cycles_ok init.
Proof.
  constructor; cbn.
  - intros tid t Hl. by rewrite lookup_nil in Hl.
  - intros m Hm. by apply elem_of_nil in Hm.
Qed.

Lemma cycles_ok_run (es : list event) (st st' : State) :
  scene_ok st → cycles_ok st → sequential es st = true →
  run es st = Some st' → cycles_ok st'.
Proof.
  revert st. induction es as [| e es IH]; intros st Hsc Hok Hseq Hrun; cbn in Hrun.
  - by injection Hrun as <-.
  - destruct (step e st) as [st1 |] eqn:Hstep; [| done].
    cbn in Hrun, Hseq. rewrite Hstep in Hseq.
    apply andb_true_iff in Hseq as [Hguard Hseq].
    eapply (IH st1); [by eapply scene_ok_step | | done | done].
    eapply cycles_ok_step; [done | done | | done]. by intros ->.
Qed.

(** ** A cycle on its own *)

Lemma cycle_from_tasks (net : network) (tid : nat) (locs : list value) :
  ∀ (k w : nat) (st : State),
    tasks (cycle_from net tid k w locs st) =
      <[tid := mkTask (k + length locs) Returned (w + cycle_delay net k locs)]> (tasks st).
Proof.
  induction locs as [| city rest IH]; intros k w st; cbn [cycle_from cycle_delay length].
  - cbn. by rewrite !Nat.add_0_r.
  - destruct (outcome_of (net k city)); rewrite IH; cbn; do 2 f_equal; lia.
Qed.

Lemma cycle_from_requests (net : network) (tid : nat) (locs : list value) :
  ∀ (k w : nat) (st : State),
    requests (cycle_from net tid k w locs st) = requests st ++ ((tid ,.) <$> locs).
Proof.
  induction locs as [| city rest IH]; intros k w st; cbn [cycle_from].
  - cbn. by rewrite app_nil_r.
  - destruct (outcome_of (net k city)); rewrite IH; cbn; by rewrite <- app_assoc.
Qed.

Lemma cycle_from_console (net : network) (tid : nat) (locs : list value) :
  ∀ (k w : nat) (st : State),
    console (cycle_from net tid k w locs st) = console st ++ cycle_log net k locs.
Proof.
  induction locs as [| city rest IH]; intros k w st; cbn [cycle_from cycle_log].
  - cbn. by rewrite app_nil_r.
  - destruct (outcome_of (net k city)); rewrite IH; cbn; by rewrite <- ?app_assoc.
Qed.

Lemma cycle_result_task (net : network) (l : list value) (st : State) :
  tasks (cycle_result net l st) !! length (tasks st)
  = Some (mkTask (length l) Returned (cycle_delay net 0 l)).
Proof.
  unfold cycle_result. rewrite cycle_from_tasks. cbn.
  apply list_lookup_insert_eq. rewrite length_app. cbn. lia.
Qed.

(** A cycle waits 1000 ms for every location, less 1000 ms for each
    iteration that threw. *)
Lemma cycle_delay_bound (net : network) (locs : list value) :
  ∀ k, cycle_delay net k locs ≤ 1000 * length locs.
Proof.
  induction locs as [| city rest IH]; intros k; cbn [cycle_delay length]; [lia |].
  specialize (IH (S k)). destruct (outcome_of (net k city)); lia.
Qed.

Lemma cycle_delay_full (net : network) (locs : list value) :
  ∀ k, (∀ i city error, outcome_of (net i city) ≠ Thrown error) →
       cycle_delay net k locs = 1000 * length locs.
Proof.
  induction locs as [| city rest IH]; intros k Hok; cbn [cycle_delay length]; [lia |].
  rewrite (IH (S k) Hok).
  destruct (outcome_of (net k city)) as [error | |] eqn:Ho; [| lia | lia].
  by apply Hok in Ho.
Qed.

(** X1: a cycle over [l] on its own returns having waited 1000 ms for each
    iteration that did not throw: at most [1000 * length l], and exactly
    that when no iteration throws. *)
Theorem cycle_waits (net : network) (l : list value) (st : State) :
  setting "locations" st = VArray l →
  ∃ st',
    run_cycle net l st = Some st'
    ∧ tasks st' !! length (tasks st)
      = Some (mkTask (length l) Returned (cycle_delay net 0 l))
    ∧ cycle_delay net 0 l ≤ 1000 * length l
    ∧ ((∀ i city error, outcome_of (net i city) ≠ Thrown error) →
       cycle_delay net 0 l = 1000 * length l).
Proof.
  intros Hloc. exists (cycle_result net l st).
  split_and!.
  - by apply run_cycle_result.
  - apply cycle_result_task.
  - apply cycle_delay_bound.
  - apply cycle_delay_full.
Qed.

(** C1, where the code departs from it: over the one location [A], with
    the [fetch] rejected, the cycle ends having waited 0 ms, not 1000. *)
Theorem rejected_fetch_skips_delay :
  ∃ st',
    run_cycle offline [VString "A"] (with_locations ["A"]) = Some st'
    ∧ tasks st' !! 0 = Some (mkTask 1 Returned 0)
    ∧ console st' = [LogError (VString "A") "TypeError: Failed to fetch"].
Proof.
  eexists. split; [by apply run_cycle_result |].
  split; [apply (cycle_result_task offline [VString "A"] (with_locations ["A"])) |].
  unfold cycle_result. by rewrite cycle_from_console.
Qed.

Lemma gt_zero_length (n : nat) : Val.gt_zero (VNumber (of_nat (S n))) = Normal true.
Proof.
  unfold Val.gt_zero, Val.to_number, of_nat, of_Z.
  cbn [Val.converts Val.number_value mbind completion_bind gt].
  destruct (Rlt_dec 0 (IZR (Z.of_nat (S n)))) as [_ | Hn]; [done |].
  exfalso. apply Hn. apply IZR_lt. lia.
Qed.

Lemma gt_zero_0 : Val.gt_zero (VNumber (of_nat 0)) = Normal false.
Proof.
  unfold Val.gt_zero, Val.to_number, of_nat, of_Z.
  cbn [Val.converts Val.number_value mbind completion_bind gt].
  destruct (Rlt_dec 0 (IZR (Z.of_nat 0))) as [Hn | _]; [| done].
  change (Z.of_nat 0) with 0%Z in Hn. lra.
Qed.

(** An empty response gives no coordinates, and nothing is thrown. *)
Lemma geocoded_empty : geocoded (VArray []) = Normal None.
Proof. unfold geocoded. cbn [Val.truthy Val.length_of length]. by rewrite gt_zero_0. Qed.

(** A response whose first result is an object gives coordinates when the
    two [parseFloat]s return. *)
Lemma geocoded_first_object (fields : list (string * value)) (rest : list value)
  (lat lon : number) :
  Val.parseFloat (Val.field "lat" fields) = Normal lat →
  Val.parseFloat (Val.field "lon" fields) = Normal lon →
  geocoded (VArray (VObject fields :: rest)) = Normal (Some (lat, lon)).
Proof.
  intros Hlat Hlon. unfold geocoded. cbn [Val.truthy Val.length_of length].
  rewrite gt_zero_length.
  cbn -[Val.parseFloat Val.converts Val.field].
  rewrite Hlat. cbn [mbind completion_bind]. by rewrite Hlon.
Qed.

(** It throws when one of the two [parseFloat]s does. *)
Lemma geocoded_first_object_throw (fields : list (string * value)) (rest : list value) :
  Val.converts (Val.field "lat" fields) && Val.converts (Val.field "lon" fields) = false →
  geocoded (VArray (VObject fields :: rest)) = Throw "TypeError".
Proof.
  intros Hc. unfold geocoded. cbn [Val.truthy Val.length_of length].
  rewrite gt_zero_length.
  cbn -[Val.parseFloat Val.converts Val.field].
  unfold Val.parseFloat.
  destruct (Val.converts (Val.field "lat" fields)); [| done].
  cbn [mbind completion_bind]. cbn [andb] in Hc. by rewrite Hc.
Qed.

(** A response whose first result is [null] throws. *)
Lemma geocoded_first_null (rest : list value) :
  geocoded (VArray (VNull :: rest)) = Throw "TypeError".
Proof.
  unfold geocoded. cbn [Val.truthy Val.length_of length].
  by rewrite gt_zero_length.
Qed.

(** So does one whose first result is missing. *)
Lemma geocoded_first_undefined (rest : list value) :
  geocoded (VArray (VUndefined :: rest)) = Throw "TypeError".
Proof.
  unfold geocoded. cbn [Val.truthy Val.length_of length].
  by rewrite gt_zero_length.
Qed.

(** The guard throws when [data.length] cannot be converted to a number. *)
Lemma geocoded_length_throws (fields : list (string * value)) :
  Val.converts (Val.field "length" fields) = false →
  geocoded (VObject fields) = Throw "TypeError".
Proof.
  intros Hc. unfold geocoded, Val.gt_zero, Val.to_number.
  cbn [Val.truthy Val.length_of]. by rewrite Hc.
Qed.

(** A string is read by [parseFloat] without more ado. *)
Lemma parseFloat_string (s : string) : Val.parseFloat (VString s) = Normal (Str.parseFloat s).
Proof. reflexivity. Qed.

(** A result as the service gives it, with strings for [lat] and [lon]. *)
Lemma geocoded_result (lat lon : string) (rest : list value) :
  geocoded (VArray (result lat lon :: rest))
  = Normal (Some (Str.parseFloat lat, Str.parseFloat lon)).
Proof. by apply geocoded_first_object. Qed.

Lemma parseFloat_40 : Str.parseFloat "40.0" = Num 40.
Proof. change (Num (400 / 10) = Num 40). f_equal. lra. Qed.

Lemma parseFloat_minus_74 : Str.parseFloat "-74.0" = Num (-74).
Proof. change (Num (-740 / 10) = Num (-74)). f_equal. lra. Qed.

Lemma outcome_of_result_40_74 (rest : list value) :
  outcome_of (FetchResolved (JsonResolved (VArray (result "40.0" "-74.0" :: rest))))
  = Geocoded (Num 40) (Num (-74)).
Proof.
  unfold outcome_of. rewrite geocoded_result.
  by rewrite parseFloat_40, parseFloat_minus_74.
Qed.

Lemma outcome_of_empty : outcome_of (FetchResolved (JsonResolved (VArray []))) = NoResult.
Proof. unfold outcome_of. by rewrite geocoded_empty. Qed.

Lemma cycle_waits_witness :
  ∃ st',
    run_cycle nothing_found [VString "B"] (with_locations ["B"]) = Some st'
    ∧ tasks st' !! 0 = Some (mkTask 1 Returned 1000).
Proof.
  destruct (cycle_waits nothing_found [VString "B"] (with_locations ["B"]) eq_refl)
    as (st' & Hrun & Htask & _ & Hfull).
  exists st'. split; [exact Hrun |].
  change (length (tasks (with_locations ["B"]))) with 0 in Htask.
  rewrite Htask, Hfull; [reflexivity |].
  intros i city error. unfold nothing_found. by rewrite outcome_of_empty.
Defined.

(** A response whose first result is neither [null] nor missing gives
    coordinates. *)
Lemma geocoded_first_nonnull (first : value) (rest : list value) :
  first ≠ VNull → first ≠ VUndefined → (∀ fields, first ≠ VObject fields) →
  geocoded (VArray (first :: rest)) = Normal (Some (NaN, NaN)).
Proof.
  intros Hnull Hundef Hobj. unfold geocoded. cbn [Val.truthy Val.length_of length].
  rewrite gt_zero_length. destruct first; try done. by destruct (Hobj fields).
Qed.

Lemma cycle_log_thrown (net : network) (locs : list value) :
  ∀ k i city error,
    locs !! i = Some city → outcome_of (net (k + i) city) = Thrown error →
    LogError city error ∈ cycle_log net k locs.
Proof.
  induction locs as [| c rest IH]; intros k i city error Hi Ho; [done |].
  cbn [cycle_log]. apply elem_of_app. destruct i as [| i]; cbn in Hi.
  - injection Hi as ->. rewrite Nat.add_0_r in Ho. rewrite Ho. left. by left.
  - right. apply (IH (S k) i); [done |]. by rewrite <- Nat.add_succ_comm in Ho.
Qed.

(** C2, as the code has it: whatever the lookups give, a cycle over [l]
    issues the lookup of every location of [l], in order, and returns; it
    writes an error message for each iteration that threw (a rejected
    [fetch], a body that is not JSON, a [null] first result), the
    confirmation for each marker, and nothing for an empty response.  Over
    two locations of which the first is geocoded to (40, -74) and the second
    gives nothing or throws, the store ends with one marker, at the
    projection of (40, -74). *)
Theorem cycle_survives_failures :
  (∀ (net : network) (l : list value) (st : State),
     setting "locations" st = VArray l →
     ∃ st',
       run_cycle net l st = Some st'
       ∧ (∃ w, tasks st' !! length (tasks st) = Some (mkTask (length l) Returned w))
       ∧ requests st' = requests st ++ ((length (tasks st) ,.) <$> l)
       ∧ console st' = console st ++ cycle_log net 0 l
       ∧ (∀ i city error,
            l !! i = Some city → outcome_of (net i city) = Thrown error →
            LogError city error ∈ console st'))
  ∧ (∀ (net : network) (a b : value) (st : State),
       setting "locations" st = VArray [a; b] →
       outcome_of (net 0 a) = Geocoded (Num 40) (Num (-74)) →
       outcome_of (net 1 b) = NoResult ∨ (∃ error, outcome_of (net 1 b) = Thrown error) →
       ∃ st' m,
         run_cycle net [a; b] st = Some st'
         ∧ markers st' = [m]
         ∧ position m = latLonToVector3 (Num 40) (Num (-74)) (Num 1.005)).
Proof.
  split.
  - intros net l st Hloc. exists (cycle_result net l st).
    split; [by apply run_cycle_result |].
    split; [eexists; apply cycle_result_task |].
    assert (Hlog : console (cycle_result net l st) = console st ++ cycle_log net 0 l)
      by (unfold cycle_result; by rewrite cycle_from_console).
    split; [unfold cycle_result; by rewrite cycle_from_requests |].
    split; [done |].
    intros i city error Hi Ho. rewrite Hlog. apply elem_of_app. right.
    by apply (cycle_log_thrown net l 0 i).
  - intros net a b st Hloc Ha Hb. exists (cycle_result net [a; b] st).
    assert (Hm : ∃ m, markers (cycle_result net [a; b] st) = [m]
                      ∧ position m = latLonToVector3 (Num 40) (Num (-74)) (Num 1.005)).
    { unfold cycle_result. cbn [cycle_from]. rewrite Ha.
      destruct Hb as [Hb | [error Hb]]; rewrite Hb; eexists; cbn; done. }
    destruct Hm as (m & Hm & Hpos). exists m.
    split; [by apply run_cycle_result | done].
Qed.

Lemma cycle_survives_failures_witness :
  (∃ st',
     run_cycle offline [VString "A"; VString "B"] (with_locations ["A"; "B"]) = Some st'
     ∧ requests st' = [(0, VString "A"); (0, VString "B")]
     ∧ LogError (VString "A") "TypeError: Failed to fetch" ∈ console st')
  ∧ (∃ st' m,
       run_cycle first_only [VString "A"; VString "B"] (with_locations ["A"; "B"])
       = Some st'
       ∧ markers st' = [m]
       ∧ position m = latLonToVector3 (Num 40) (Num (-74)) (Num 1.005)).
Proof.
  pose proof cycle_survives_failures as [Hall Hexample]. split.
  - destruct (Hall offline [VString "A"; VString "B"] (with_locations ["A"; "B"]) eq_refl)
      as (st' & Hrun & _ & Hreq & _ & Hlog).
    exists st'. split_and!; [exact Hrun | exact Hreq |].
    apply (Hlog 0 (VString "A")); reflexivity.
  - apply (Hexample first_only (VString "A") (VString "B") (with_locations ["A"; "B"])).
    + reflexivity.
    + apply outcome_of_result_40_74.
    + left. apply outcome_of_empty.
Defined.

(** C2 as stated fails: a cycle over the one location [B] whose lookup
    gives the empty array ends with nothing written to the console. *)
Lemma empty_response_not_logged :
  ∃ st',
    run_cycle nothing_found [VString "B"] (with_locations ["B"]) = Some st'
    ∧ console st' = [].
Proof.
  eexists. split; [by apply run_cycle_result |].
  unfold cycle_result. rewrite cycle_from_console. cbn [cycle_log].
  unfold nothing_found. by rewrite outcome_of_empty.
Qed.

(** ** Coordinates that are not numbers *)

Lemma latLonToVector3_NaN_lat (lon r : number) :
  latLonToVector3 NaN lon r = mkVector3 NaN NaN NaN.
Proof.
  unfold latLonToVector3. rewrite PI_over_180. cbn [sub mul Math.sin Math.cos].
  by rewrite !mul_NaN_r, !mul_NaN_l.
Qed.

Lemma latLonToVector3_NaN_lon (lat r : number) :
  THREE.x (latLonToVector3 lat NaN r) = NaN ∧ THREE.z (latLonToVector3 lat NaN r) = NaN.
Proof.
  unfold latLonToVector3. rewrite PI_over_180. cbn [add mul Math.sin Math.cos THREE.x THREE.z].
  by rewrite !mul_NaN_r.
Qed.

(** A turn that ends in [catch] adds no marker, writes the error and
    takes the call to its next iteration, the delay left out. *)
Lemma catch_error_failed (tid : nat) (t : task) (city : value) (error : string)
  (st : State) :
  tasks st !! tid = Some t →
  lookup_failed st (catch_error tid t city error st) tid t city error.
Proof.
  intros Ht. apply lookup_lt_Some in Ht.
  unfold lookup_failed, catch_error, loop_head.
  destruct (iterate _ _) as [[c |] | e]; cbn; split_and!; try done;
    (eexists; split; [by apply list_lookup_insert_eq | done]).
Qed.

(** A turn that finds coordinates adds the marker and goes to the delay. *)
Lemma place_marker_added (tid : nat) (t : task) (city : value) (lat lon : number)
  (st : State) :
  tasks st !! tid = Some t →
  marker_added st
    (set_task tid (mkTask (iter_next t) (AwaitTimer city) (waited t))
       (place_marker tid (pred (iter_next t)) city lat lon st))
    tid t city lat lon.
Proof.
  intros Ht. apply lookup_lt_Some in Ht. unfold marker_added.
  eexists. cbn. split_and!; try reflexivity. by apply list_lookup_insert_eq.
Qed.



Lemma outcome_of_null_result (k : nat) (city : value) :
  outcome_of (null_result k city) = Thrown "TypeError".
Proof. unfold outcome_of, null_result. by rewrite geocoded_first_null. Qed.

Lemma outcome_of_unconvertible (k : nat) (city : value) :
  outcome_of (unconvertible k city) = Thrown "TypeError".
Proof.
  unfold outcome_of, unconvertible. by rewrite geocoded_first_object_throw.
Qed.


(** ** Clearing the store *)

(** C8: [clearMarkers()] leaves the store empty; when the globe's children
    are distinct objects, as they are in every state of the program, no
    stored marker is a child of the globe afterwards (in a state of the
    program the globe is left without children); a second call leaves the
    store empty again and changes nothing, and a call on an empty store
    changes nothing at all. *)
Theorem clearMarkers_spec (st : State) :
  markers (clearMarkers st) = []
  ∧ (NoDup (mesh_id <$> globe_children st) →
     ∀ m, m ∈ markers st → mesh_id m ∉ mesh_id <$> globe_children (clearMarkers st))
  ∧ (reachable st → globe_children (clearMarkers st) = [])
  ∧ markers (clearMarkers (clearMarkers st)) = []
  ∧ clearMarkers (clearMarkers st) = clearMarkers st
  ∧ (markers st = [] → clearMarkers st = st).
Proof.
  split_and!; try reflexivity.
  - intros Hnd m Hm. by apply remove_all_gone.
  - intros Hst%scene_ok_reachable%scene_ok_clearMarkers.
    by rewrite (children_are_markers _ Hst).
  - intros Hempty. destruct st. cbn in *. subst. reflexivity.
Qed.

Lemma clearMarkers_spec_witness :
  let st := (addMarker (Num 40) (Num (-74)) VUndefined VUndefined init).2 in
  markers (clearMarkers st) = []
  ∧ (0 ∉ mesh_id <$> globe_children (clearMarkers st))
  ∧ clearMarkers (clearMarkers st) = clearMarkers st.
Proof.
  intros st. destruct (clearMarkers_spec st) as (Hempty & Hgone & _ & _ & Hagain & _).
  split_and!; [exact Hempty | | exact Hagain].
  apply (Hgone (NoDup_singleton 0)
           (addMarker (Num 40) (Num (-74)) VUndefined VUndefined init).1).
  by apply list_elem_of_singleton.
Defined.

(** ** Cycles that do not overlap *)

Lemma sequential_no_refresh (es : list event) :
  ∀ st, Refresh ∉ es → sequential es st = true.
Proof.
  induction es as [| e es IH]; intros st Hno; cbn [sequential]; [done |].
  apply not_elem_of_cons in Hno as [He Hno].
  apply andb_true_iff. split; [by destruct e |].
  destruct (step e st); [by apply IH | done].
Qed.

Lemma cycle_events_no_refresh (net : network) (tid : nat) (locs : list value) :
  ∀ k, Refresh ∉ cycle_events net tid k locs.
Proof.
  induction locs as [| city rest IH]; intros k; cbn [cycle_events]; [apply not_elem_of_nil |].
  apply not_elem_of_app. split; [| apply IH].
  unfold iteration_events.
  destruct (net k city) as [error | [error | data]]; [| | destruct (geocoded data)];
    intros Hin; repeat (apply elem_of_cons in Hin as [Hin | Hin]; [done |]);
    by apply elem_of_nil in Hin.
Qed.

(** A cycle started when none is in flight overlaps no other. *)
Lemma sequential_cycle (net : network) (l : list value) (st : State) :
  idle st = true →
  sequential (Refresh :: cycle_events net (length (tasks st)) 0 l) st = true.
Proof.
  intros Hidle. cbn [sequential step]. rewrite Hidle. cbn [andb].
  apply sequential_no_refresh, cycle_events_no_refresh.
Qed.

Lemma markers_loop_head (tid i w : nat) (st : State) :
  markers (loop_head tid i w st) = markers st.
Proof. by destruct (loop_head_cases tid i w st) as [[city ->] | (t & -> & _)]. Qed.



Lemma loop_head_fetch (tid i w : nat) (st : State) (l : list value) (city : value) :
  setting "locations" st = VArray l → l !! i = Some city →
  loop_head tid i w st =
    with_requests (requests st ++ [(tid, city)])
      (set_task tid (mkTask (S i) (AwaitFetch city) w) st).
Proof. intros Hl Hi. unfold loop_head. rewrite Hl. cbn. by rewrite Hi. Qed.

Lemma step_refresh (st : State) (l : list value) (city : value) :
  setting "locations" st = VArray l → l !! 0 = Some city →
  step Refresh st =
    Some (with_requests (requests st ++ [(length (tasks st), city)])
            (set_task (length (tasks st)) (mkTask 1 (AwaitFetch city) 0)
               (with_tasks (tasks st ++ [mkTask 0 Returned 0]) (clearMarkers st)))).
Proof.
  intros Hl Hi. cbn [step]. unfold geocodeAndAddMarkers. cbn [tasks clearMarkers].
  by erewrite loop_head_fetch.
Qed.

Lemma locations_init :
  setting "locations" init =
    VArray [VString "New York, USA"; VString "Miami, USA"; VString "Cancun, Mexico"].
Proof. reflexivity. Qed.

(** The state [overlapping] leads to: one marker, placed by cycle 0, while
    the most recent cycle is cycle 1. *)
Lemma overlapping_run :
  ∃ st m,
    run overlapping init = Some st
    ∧ markers st = [m]
    ∧ mesh_id m = 0
    ∧ placed st = [mkPlacement 0 0 0 (VString "New York, USA")
                     (Str.parseFloat "40.0") (Str.parseFloat "-74.0")]
    ∧ latest st = 1.
Proof.
  set (city := VString "New York, USA").
  set (data := VArray [result "40.0" "-74.0"]).
  set (t1 := mkTask 1 (AwaitFetch city) 0).
  set (t2 := mkTask 1 (AwaitJson city (JsonResolved data)) 0).
  set (s1 := mkState initial_settings [] [] 0 [] [t1] [(0, city)] []).
  set (s2 := mkState initial_settings [] [] 0 [] [t1; t1] [(0, city); (1, city)] []).
  set (s3 := mkState initial_settings [] [] 0 [] [t2; t1] [(0, city); (1, city)] []).
  assert (H1 : step Refresh init = Some s1)
    by (by rewrite (step_refresh init _ city locations_init eq_refl)).
  assert (H2 : step Refresh s1 = Some s2)
    by (by rewrite (step_refresh s1 _ city locations_init eq_refl)).
  assert (H3 : step (FetchSettled 0 (FetchResolved (JsonResolved data))) s2 = Some s3)
    by (by rewrite (step_fetch 0 _ s2 t1 city eq_refl eq_refl)).
  assert (H4 : step (JsonSettled 0) s3
               = Some (after_json 0 t2 city (JsonResolved data) s3))
    by (by rewrite (step_json 0 s3 t2 city _ eq_refl eq_refl)).
  unfold after_json, data in H4. rewrite geocoded_result in H4.
  fold data in H3. 
  eexists. eexists. split.
  { unfold overlapping. cbn [run]. fold data. rewrite H1. cbn [mbind option_bind].
    rewrite H2. cbn [mbind option_bind]. rewrite H3. cbn [mbind option_bind].
    rewrite H4. reflexivity. }
  split_and!; reflexivity.
Qed.


(** [awaiting_unparsable] is where the program stands once the first
    response has come. *)
Lemma awaiting_unparsable_reached :
  run [Refresh;
       FetchSettled 0 (FetchResolved (JsonResolved (VArray [result "abc" "-74.0"])))]
    (with_locations ["X"]) = Some awaiting_unparsable.
Proof.
  cbn [run]. rewrite (step_refresh (with_locations ["X"]) [VString "X"] (VString "X"));
    [| reflexivity | reflexivity].
  cbn [mbind option_bind].
  by erewrite step_fetch; [| reflexivity | reflexivity].
Qed.

(** ** The fields of [settings] *)

Lemma settings_loop_head (tid i w : nat) (st : State) :
  settings (loop_head tid i w st) = settings st.
Proof. by destruct (loop_head_cases tid i w st) as [[city ->] | (t & -> & _)]. Qed.

(** A step leaves [settings] alone or assigns the property it writes. *)
Lemma step_settings (e : event) (st st' : State) :
  step e st = Some st' →
  settings st' = settings st
  ∨ ∃ k v, written_by e = Some k ∧ settings st' = <[k := v]> (settings st).
Proof.
  intros Hstep. pose proof (step_continuation e st st' Hstep) as Hc.
  destruct e; cbn in Hstep; try (injection Hstep as <-).
  - left. unfold geocodeAndAddMarkers. by rewrite settings_loop_head.
  - left. destruct Hc as (t & city & _ & _ & ->). unfold after_fetch, catch_error.
    destruct r; [by rewrite settings_loop_head | done].
  - left. destruct Hc as (t & city & body & _ & _ & ->). unfold after_json, catch_error.
    destruct body as [error | data]; [by rewrite settings_loop_head |].
    destruct (geocoded data) as [[[lat lon] |] | error];
      [done | done | by rewrite settings_loop_head].
  - left. destruct Hc as (t & city & _ & _ & ->). unfold after_timer.
    by rewrite settings_loop_head.
  - right. by eexists _, _.
  - right. by eexists _, _.
  - right. by eexists _, _.
  - right. by eexists _, _.
  - right. by eexists _, _.
  - right. by eexists _, _.
  - right. by eexists _, _.
  - right. by eexists _, _.
  - unfold addLocation. destruct (negb _); [| by left].
    destruct (setting "locations" st); try by left. right. by eexists _, _.
  - destruct (setting "locations" st) eqn:Hl; try done.
    case_decide; [| done]. injection Hstep as <-.
    unfold removeLocation. rewrite Hl. right. by eexists _, _.
Qed.

Lemma step_keeps_fields (e : event) (st st' : State) (k : string) :
  step e st = Some st' → is_Some (settings st !! k) → is_Some (settings st' !! k).
Proof.
  intros [-> | (k' & v & _ & ->)]%step_settings Hk; [done |].
  apply lookup_insert_is_Some. destruct (decide (k' = k)); auto.
Qed.

Lemma step_other_fields (e : event) (st st' : State) (k : string) :
  step e st = Some st' → written_by e ≠ Some k → settings st' !! k = settings st !! k.
Proof.
  intros [-> | (k' & v & Hw & ->)]%step_settings Hk; [done |].
  apply lookup_insert_ne. congruence.
Qed.

Lemma run_keeps_fields (es : list event) (k : string) :
  ∀ st st', run es st = Some st' →
            is_Some (settings st !! k) → is_Some (settings st' !! k).
Proof.
  induction es as [| e es IH]; intros st st' Hrun Hk; cbn in Hrun.
  - by injection Hrun as <-.
  - destruct (step e st) as [st1 |] eqn:Hstep; [| done]. cbn in Hrun.
    eapply IH; [done |]. by eapply step_keeps_fields.
Qed.

Lemma run_other_fields (es : list event) (k : string) :
  ∀ st st', run es st = Some st' →
            (∀ e, e ∈ es → written_by e ≠ Some k) →
            settings st' !! k = settings st !! k.
Proof.
  induction es as [| e es IH]; intros st st' Hrun Hk; cbn in Hrun.
  - by injection Hrun as <-.
  - destruct (step e st) as [st1 |] eqn:Hstep; [| done]. cbn in Hrun.
    rewrite (IH st1 st' Hrun); [| intros e' He'; apply Hk; by right].
    apply (step_other_fields e st st1 k Hstep). apply Hk. by left.
Qed.

Lemma literal_fields_init (k : string) :
  k ∈ literal_fields → is_Some (settings init !! k).
Proof.
  unfold literal_fields. intros Hk.
  repeat (apply elem_of_cons in Hk as [-> | Hk]; [by eexists |]).
  by apply elem_of_nil in Hk.
Qed.

Lemma light_fields_init (k : string) : k ∈ light_fields → settings init !! k = None.
Proof.
  unfold light_fields. intros Hk.
  repeat (apply elem_of_cons in Hk as [-> | Hk]; [done |]).
  by apply elem_of_nil in Hk.
Qed.

(** [settings.locations] is always an array of strings. *)
Lemma is_names_step (e : event) (st st' : State) :
  step e st = Some st' → is_names (setting "locations" st) →
  is_names (setting "locations" st').
Proof.
  intros Hstep Hn.
  destruct (decide (written_by e = Some "locations")) as [Hw | Hw].
  - destruct e; try done; cbn in Hstep.
    + injection Hstep as <-. unfold addLocation. destruct (negb _); [| done].
      destruct Hn as [l Hl]. rewrite Hl. unfold setting, set_setting. cbn.
      rewrite lookup_insert_eq. cbn. exists (l ++ [Str.trim text]).
      by rewrite fmap_app.
    + destruct Hn as [l Hl]. rewrite Hl in Hstep. case_decide; [| done].
      injection Hstep as <-. unfold removeLocation. rewrite Hl.
      unfold setting, set_setting. cbn. rewrite lookup_insert_eq. cbn.
      exists (delete index l). by rewrite list_fmap_delete.
  - unfold setting in *. by rewrite (step_other_fields e st st' _ Hstep Hw).
Qed.

Lemma is_names_run (es : list event) :
  ∀ st st', run es st = Some st' → is_names (setting "locations" st) →
            is_names (setting "locations" st').
Proof.
  induction es as [| e es IH]; intros st st' Hrun Hn; cbn in Hrun.
  - by injection Hrun as <-.
  - destruct (step e st) as [st1 |] eqn:Hstep; [| done]. cbn in Hrun.
    eapply IH; [done |]. by eapply is_names_step.
Qed.

Lemma is_names_init : is_names (setting "locations" init).
Proof. by exists ["New York, USA"; "Miami, USA"; "Cancun, Mexico"]%string. Qed.

(** C9, as the code has it: in every state [settings] has the seven
    properties of its literal, [locations] being an array of strings; the
    two light intensities are absent at the start and for as long as the
    slider of the one in question has not been moved, are present once it
    has, and no property, once there, goes away. *)
Theorem settings_fields :
  (∀ st k, reachable st → k ∈ literal_fields → is_Some (settings st !! k))
  ∧ (∀ st, reachable st → is_names (setting "locations" st))
  ∧ (∀ k, k ∈ light_fields → settings init !! k = None)
  ∧ (∀ es st k, run es init = Some st → k ∈ light_fields →
                (∀ e, e ∈ es → written_by e ≠ Some k) → settings st !! k = None)
  ∧ (∀ st st' text, step (AmbientLightInput text) st = Some st' →
                    is_Some (settings st' !! "ambientLightIntensity"))
  ∧ (∀ st st' text, step (DirectionalLightInput text) st = Some st' →
                    is_Some (settings st' !! "directionalLightIntensity"))
  ∧ (∀ e st st' k, step e st = Some st' →
                   is_Some (settings st !! k) → is_Some (settings st' !! k)).
Proof.
  split_and!.
  - intros st k [es Hrun] Hk. eapply run_keeps_fields; [done |].
    by apply literal_fields_init.
  - intros st [es Hrun]. eapply is_names_run; [done | apply is_names_init].
  - apply light_fields_init.
  - intros es st k Hrun Hk Hes. rewrite (run_other_fields es k init st Hrun Hes).
    by apply light_fields_init.
  - intros st st' text [= <-]. cbn. rewrite lookup_insert_eq. by eexists.
  - intros st st' text [= <-]. cbn. rewrite lookup_insert_eq. by eexists.
  - intros e st st' k. apply step_keeps_fields.
Qed.

Lemma settings_fields_witness :
  is_Some (settings init !! "locations")
  ∧ settings init !! "ambientLightIntensity" = None
  ∧ is_Some (settings (set_setting "ambientLightIntensity" (number_of "2.0") init)
               !! "ambientLightIntensity").
Proof.
  pose proof settings_fields as (Hliteral & _ & _ & Habsent & Hambient & _).
  split_and!.
  - apply (Hliteral init "locations"); [by exists [] |].
    unfold literal_fields. set_solver.
  - apply (Habsent [] init "ambientLightIntensity" eq_refl).
    + unfold light_fields. set_solver.
    + intros e He. by apply elem_of_nil in He.
  - apply (Hambient init _ "2.0" eq_refl).
Defined.

(** C9 as stated fails: at the start of the program [settings] has no
    property [ambientLightIntensity]. *)
Lemma settings_lacks_light_fields_at_start :
  ¬ (∀ st k, reachable st → k ∈ literal_fields ++ light_fields →
             is_Some (settings st !! k)).
Proof.
  intros H. destruct (H init "ambientLightIntensity") as [v Hv].
  - by exists [].
  - unfold literal_fields, light_fields. set_solver.
  - done.
Qed.

(** * More properties *)

(** ** The projection, further *)

(** X3: the projection has period 360 in the longitude, so the longitudes
    -180 and 180 give the same point (the seam). *)
Theorem latLonToVector3_longitude_period (lat lon r : R) :
  latLonToVector3 (Num lat) (Num (lon + 360)) (Num r)
  = latLonToVector3 (Num lat) (Num lon) (Num r)
  ∧ latLonToVector3 (Num lat) (Num (-180)) (Num r)
    = latLonToVector3 (Num lat) (Num 180) (Num r).
Proof.
  assert (Hperiod : ∀ l,
            latLonToVector3 (Num lat) (Num (l + 360)) (Num r)
            = latLonToVector3 (Num lat) (Num l) (Num r)).
  { intros l. rewrite !latLonToVector3_Num.
    replace ((l + 360 + 180) * (PI / 180))%R
      with ((l + 180) * (PI / 180) + 2 * PI)%R by field.
    rewrite sin_plus, cos_plus, sin_2PI, cos_2PI. apply vector3_eq; ring. }
  split; [apply Hperiod |].
  rewrite <- (Hperiod (-180)%R). do 2 f_equal. lra.
Qed.

(** X4: the height of the projected point is [r sin(lat)], whatever the
    longitude, and changing the sign of the latitude mirrors the point in
    the equatorial plane. *)
Theorem latLonToVector3_latitude (lat lon r : R) :
  THREE.y (latLonToVector3 (Num lat) (Num lon) (Num r)) = Num (r * sin (lat * (PI / 180)))
  ∧ latLonToVector3 (Num (- lat)) (Num lon) (Num r)
    = mkVector3 (THREE.x (latLonToVector3 (Num lat) (Num lon) (Num r)))
        (- THREE.y (latLonToVector3 (Num lat) (Num lon) (Num r)))%js
        (THREE.z (latLonToVector3 (Num lat) (Num lon) (Num r))).
Proof.
  rewrite !latLonToVector3_Num. cbn [THREE.x THREE.y THREE.z neg]. split.
  - f_equal. f_equal.
    replace ((90 - lat) * (PI / 180))%R with (PI / 2 - lat * (PI / 180))%R by field.
    apply cos_shift.
  - replace ((90 - - lat) * (PI / 180))%R
      with (PI - (90 - lat) * (PI / 180))%R by field.
    rewrite sin_PI_x.
    replace (cos (PI - (90 - lat) * (PI / 180))) with (- cos ((90 - lat) * (PI / 180)))%R.
    + apply vector3_eq; ring.
    + rewrite cos_minus, cos_PI, sin_PI. ring.
Qed.

(** X5: a latitude that is not finite gives the point (NaN, NaN, NaN),
    whatever the longitude and the radius. *)
Theorem latLonToVector3_not_finite (lat lon r : number) :
  (∀ x : R, lat ≠ Num x) → latLonToVector3 lat lon r = mkVector3 NaN NaN NaN.
Proof.
  intros Hlat.
  assert (Hphi : Math.sin ((Num 90 - lat) * (Math.PI / Num 180))%js = NaN
                 ∧ Math.cos ((Num 90 - lat) * (Math.PI / Num 180))%js = NaN).
  { rewrite PI_over_180. destruct lat as [x | | |]; [by destruct (Hlat x) | | |]; cbn;
      unfold signed_inf; repeat destruct (Rlt_dec _ _); done. }
  destruct Hphi as [Hsin Hcos].
  unfold latLonToVector3. rewrite Hsin, Hcos.
  by rewrite !mul_NaN_r, !mul_NaN_l.
Qed.

Lemma latLonToVector3_not_finite_witness :
  latLonToVector3 (Str.parseFloat "Infinity") (Num 0) (Num 1.005) = mkVector3 NaN NaN NaN.
Proof. by apply latLonToVector3_not_finite. Defined.

(** X6: a marker made from finite coordinates lies at distance 1.005 from
    the centre of the globe and faces the point at distance 2.005 on the
    same ray. *)
Theorem addMarker_on_ray (lat lon : R) (color size : value) (st : State) :
  let marker := (addMarker (Num lat) (Num lon) color size st).1 in
  THREE.length (position marker) = Num 1.005
  ∧ facing marker = latLonToVector3 (Num lat) (Num lon) (Num 2.005)
  ∧ THREE.length (facing marker) = Num 2.005.
Proof.
  cbn [addMarker fst position facing].
  assert (Hfacing :
    THREE.add (latLonToVector3 (Num lat) (Num lon) (Num 1.005))
      (THREE.normalize (latLonToVector3 (Num lat) (Num lon) (Num 1.005)))
    = latLonToVector3 (Num lat) (Num lon) (Num 2.005)).
  { rewrite normalize_latLonToVector3, !latLonToVector3_Num.
    unfold THREE.add. cbn [THREE.x THREE.y THREE.z add]. apply vector3_eq; lra. }
  rewrite Hfacing. split_and!; [| done |]; apply length_latLonToVector3; lra.
Qed.

(** ** The markers of a cycle *)

Lemma cycle_from_positions (net : network) (tid : nat) (locs : list value) :
  ∀ (k w : nat) (st : State),
    position <$> markers (cycle_from net tid k w locs st)
    = (position <$> markers st) ++ cycle_positions net k locs.
Proof.
  induction locs as [| city rest IH]; intros k w st; cbn [cycle_from cycle_positions].
  - cbn. by rewrite app_nil_r.
  - destruct (outcome_of (net k city)) as [error | | lat lon]; rewrite IH; [done | done |].
    cbn [place_marker addMarker markers with_placed with_console with_requests].
    by rewrite fmap_app, <- app_assoc.
Qed.

Lemma cycle_from_settings (net : network) (tid : nat) (locs : list value) :
  ∀ (k w : nat) (st : State),
    settings (cycle_from net tid k w locs st) = settings st.
Proof.
  induction locs as [| city rest IH]; intros k w st; cbn [cycle_from]; [done |].
  destruct (outcome_of (net k city)); by rewrite IH.
Qed.

Lemma cycle_from_styles (net : network) (tid : nat) (locs : list value)
  (color size : value) :
  ∀ (k w : nat) (st : State),
    setting "markerColor" st = color → setting "markerSize" st = size →
    Forall (fun m => material_color m = color ∧ geometry_radius m = size) (markers st) →
    Forall (fun m => material_color m = color ∧ geometry_radius m = size)
      (markers (cycle_from net tid k w locs st)).
Proof.
  induction locs as [| city rest IH]; intros k w st Hc Hs Hall; cbn [cycle_from]; [done |].
  destruct (outcome_of (net k city)) as [error | | lat lon]; apply IH; try done.
  cbn [place_marker addMarker markers with_placed with_console with_requests].
  apply Forall_app. split; [done |]. apply Forall_singleton. by cbn.
Qed.

Lemma cycle_positions_length (net : network) (locs : list value) :
  ∀ k, length (cycle_positions net k locs) ≤ length locs.
Proof.
  induction locs as [| city rest IH]; intros k; cbn [cycle_positions length]; [lia |].
  specialize (IH (S k)). rewrite length_app.
  destruct (outcome_of (net k city)); cbn; lia.
Qed.

Lemma outcome_of_online (k : nat) (city : value) :
  outcome_of (online k city) = Geocoded (Str.parseFloat "25.77") (Str.parseFloat "-80.19").
Proof. unfold outcome_of, online. by rewrite geocoded_result. Qed.

(** After the first cycle, with every location found, the store holds
    three markers: they are the globe's children and distinct objects. *)
Lemma globe_children_are_markers_witness :
  let l := [VString "New York, USA"; VString "Miami, USA"; VString "Cancun, Mexico"] in
  let st := cycle_result online l init in
  length (markers st) = 3
  ∧ globe_children st = markers st
  ∧ NoDup (mesh_id <$> markers st).
Proof.
  intros l st. split.
  - rewrite <- (length_fmap position). unfold st, cycle_result.
    rewrite cycle_from_positions. unfold l. cbn [cycle_positions].
    by rewrite !outcome_of_online.
  - apply (globe_children_are_markers st).
    exists (Refresh :: cycle_events online 0 0 l).
    apply (run_cycle_result online l init). reflexivity.
Defined.

(** X7: after a cycle on its own the store holds one marker for each
    location that was geocoded, and no other, in the order of the list, each
    at the projection of the coordinates found, with the colour and the size
    that [settings] holds; what the store held before plays no part. *)
Theorem cycle_markers (net : network) (l : list value) (st : State) :
  setting "locations" st = VArray l →
  ∃ st',
    run_cycle net l st = Some st'
    ∧ position <$> markers st' = cycle_positions net 0 l
    ∧ Forall (fun m => material_color m = setting "markerColor" st
                       ∧ geometry_radius m = setting "markerSize" st) (markers st')
    ∧ length (markers st') ≤ length l.
Proof.
  intros Hloc. exists (cycle_result net l st).
  split; [by apply run_cycle_result |].
  assert (Hpos : position <$> markers (cycle_result net l st) = cycle_positions net 0 l)
    by (unfold cycle_result; by rewrite cycle_from_positions).
  split_and!; [done | |].
  - unfold cycle_result. by apply cycle_from_styles.
  - rewrite <- (length_fmap position), Hpos. apply cycle_positions_length.
Qed.

Lemma cycle_markers_witness :
  ∃ st',
    run_cycle first_only [VString "A"; VString "B"] (with_locations ["A"; "B"]) = Some st'
    ∧ position <$> markers st' = [latLonToVector3 (Num 40) (Num (-74)) (Num 1.005)]
    ∧ length (markers st') ≤ 2.
Proof.
  destruct (cycle_markers first_only [VString "A"; VString "B"]
              (with_locations ["A"; "B"]) eq_refl)
    as (st' & Hrun & Hpos & _ & Hlen).
  exists st'. split_and!; [exact Hrun | | exact Hlen].
  rewrite Hpos. cbn [cycle_positions first_only].
  by rewrite outcome_of_result_40_74, outcome_of_empty.
Defined.



(** ** The sidebar and the markers *)

Lemma sidebar_only_settings (e : event) (st st' : State) :
  step e st = Some st' → is_Some (written_by e) →
  markers st' = markers st
  ∧ globe_children st' = globe_children st
  ∧ console st' = console st
  ∧ tasks st' = tasks st
  ∧ requests st' = requests st
  ∧ placed st' = placed st.
Proof.
  intros Hstep [k Hk].
  destruct e; try done; cbn in Hstep; try (by injection Hstep as <-).
  - injection Hstep as <-. unfold addLocation.
    destruct (negb _); [| done]. by destruct (setting "locations" st).
  - destruct (setting "locations" st) eqn:Hl; try done.
    case_decide; [| done]. injection Hstep as <-.
    unfold removeLocation. by rewrite Hl.
Qed.

(** X9: a handler of the sidebar changes [settings] only: the marker
    store, the globe, the console and the cycles in flight stay as they are.
    So a new colour or size reaches no marker that exists, and a location
    removed from the list keeps its marker, until the next cycle. *)
Theorem sidebar_leaves_markers (e : event) (st st' : State) :
  step e st = Some st' → is_Some (written_by e) →
  markers st' = markers st
  ∧ globe_children st' = globe_children st
  ∧ console st' = console st
  ∧ tasks st' = tasks st
  ∧ requests st' = requests st.
Proof.
  intros Hstep Hw.
  destruct (sidebar_only_settings e st st' Hstep Hw) as (? & ? & ? & ? & ? & _).
  done.
Qed.

Lemma sidebar_leaves_markers_witness :
  let st := (addMarker (Num 40) (Num (-74)) VUndefined VUndefined init).2 in
  markers (set_setting "markerColor" (color_of "#00ff00") st) = markers st.
Proof.
  intros st.
  apply (sidebar_leaves_markers (MarkerColorInput "#00ff00") st _ eq_refl).
  by eexists.
Defined.

(** X10: a marker gets the colour and the size that [settings] holds when
    its response arrives, not those of the start of the cycle, and gets them
    unchecked: when the response gives coordinates (its first result is an
    object and the two [parseFloat]s return), after the two inputs [c] and
    [s] the marker added has the colour [parseInt] of [c] and the radius
    [parseFloat] of [s], [NaN] included. *)
Theorem marker_style_at_arrival
  (st : State) (tid : nat) (t : task) (city : value)
  (fields : list (string * value)) (rest : list value) (lat lon : number)
  (c s : string) :
  tasks st !! tid = Some t →
  at_point t = AwaitJson city (JsonResolved (VArray (VObject fields :: rest))) →
  Val.parseFloat (Val.field "lat" fields) = Normal lat →
  Val.parseFloat (Val.field "lon" fields) = Normal lon →
  ∃ st' m,
    run [MarkerColorInput c; MarkerSizeInput s; JsonSettled tid] st = Some st'
    ∧ markers st' = markers st ++ [m]
    ∧ material_color m = VNumber (Str.parseInt (Str.replace_first "#" "0x" c))
    ∧ geometry_radius m = VNumber (Str.parseFloat s).
Proof.
  intros Ht Hp Hlat Hlon. cbn [run step mbind option_bind].
  set (st1 := set_setting "markerSize" (number_of s)
                (set_setting "markerColor" (color_of c) st)).
  change (tasks st1) with (tasks st). rewrite Ht. cbn [mbind option_bind]. rewrite Hp.
  unfold after_json. rewrite (geocoded_first_object fields rest lat lon Hlat Hlon).
  eexists. eexists. split; [reflexivity |].
  cbn [set_task with_tasks markers place_marker addMarker with_placed with_console].
  split_and!; [reflexivity | |]; cbn [material_color geometry_radius].
  - unfold setting, st1, set_setting. cbn [settings with_settings].
    rewrite lookup_insert_ne by done. by rewrite lookup_insert_eq.
  - unfold setting, st1, set_setting. cbn [settings with_settings].
    by rewrite lookup_insert_eq.
Qed.

Lemma marker_style_at_arrival_witness :
  ∃ st' m,
    run [MarkerColorInput "#00ff00"; MarkerSizeInput "big"; JsonSettled 0]
      awaiting_unparsable = Some st'
    ∧ markers st' = [m]
    ∧ material_color m = VNumber (Num 65280)
    ∧ geometry_radius m = VNumber NaN.
Proof.
  apply (marker_style_at_arrival awaiting_unparsable 0
           (mkTask 1 (AwaitJson (VString "X")
                        (JsonResolved (VArray [result "abc" "-74.0"]))) 0)
           (VString "X") [("lat", VString "abc"); ("lon", VString "-74.0")] []
           NaN (Str.parseFloat "-74.0") "#00ff00" "big"
           eq_refl eq_refl eq_refl eq_refl).
Defined.

(** ** The list of locations while a cycle is in flight *)

Lemma setting_set_setting (k : string) (v : value) (st : State) :
  setting k (set_setting k v st) = v.
Proof. unfold setting, set_setting. cbn. by rewrite lookup_insert_eq. Qed.

Lemma step_add_location (text : string) (st : State) (l : list value) :
  setting "locations" st = VArray l → Str.trim text ≠ EmptyString →
  step (AddLocationClick text) st
  = Some (set_setting "locations" (VArray (l ++ [VString (Str.trim text)])) st).
Proof.
  intros Hloc Htext. cbn [step]. unfold addLocation. rewrite Hloc.
  by destruct (String.eqb_spec (Str.trim text) "").
Qed.

Lemma step_remove_location (index : nat) (st : State) (l : list value) :
  setting "locations" st = VArray l → index < length l →
  step (RemoveLocationClick index) st
  = Some (set_setting "locations" (VArray (delete index l)) st).
Proof.
  intros Hloc Hlt. cbn [step]. unfold removeLocation. rewrite Hloc.
  by rewrite decide_True.
Qed.

Lemma loop_head_end (tid i w : nat) (st : State) (l : list value) :
  setting "locations" st = VArray l → l !! i = None →
  loop_head tid i w st = set_task tid (mkTask i Returned w) st.
Proof. intros Hl Hi. unfold loop_head. rewrite Hl. cbn. by rewrite Hi. Qed.

(** X11: the loop reads the list in place.  When the last location has
    been processed and the cycle is in its delay, the cycle would return;
    a location added meanwhile is looked up by that same cycle. *)
Theorem location_added_in_flight
  (st : State) (tid : nat) (t : task) (city : value) (l : list value) (text : string) :
  tasks st !! tid = Some t → at_point t = AwaitTimer city →
  setting "locations" st = VArray l → iter_next t = length l →
  Str.trim text ≠ EmptyString →
  (∃ st', run [TimerFired tid] st = Some st'
          ∧ tasks st' !! tid = Some (mkTask (length l) Returned (waited t + 1000)))
  ∧ (∃ st', run [AddLocationClick text; TimerFired tid] st = Some st'
            ∧ tasks st' !! tid
              = Some (mkTask (S (length l)) (AwaitFetch (VString (Str.trim text)))
                        (waited t + 1000))
            ∧ requests st' = requests st ++ [(tid, VString (Str.trim text))]).
Proof.
  intros Ht Hp Hloc Hi Htext.
  assert (Htid : tid < length (tasks st)) by (by eapply lookup_lt_Some).
  split.
  - cbn [run]. rewrite (step_timer tid st t city Ht Hp). cbn [mbind option_bind].
    unfold after_timer. rewrite Hi.
    rewrite (loop_head_end tid (length l) _ st l Hloc) by (by apply lookup_ge_None_2).
    eexists. split; [reflexivity |]. by apply tasks_set_task.
  - cbn [run]. rewrite (step_add_location text st l Hloc Htext). cbn [mbind option_bind].
    set (st1 := set_setting "locations" (VArray (l ++ [VString (Str.trim text)])) st).
    rewrite (step_timer tid st1 t city Ht Hp). cbn [mbind option_bind].
    unfold after_timer. rewrite Hi.
    rewrite (loop_head_fetch tid (length l) _ st1 (l ++ [VString (Str.trim text)])
               (VString (Str.trim text))).
    + eexists. split; [reflexivity |]. split; [by apply tasks_set_task | done].
    + apply setting_set_setting.
    + by rewrite lookup_app_r, Nat.sub_diag by lia.
Qed.

Lemma location_added_in_flight_witness :
  let st :=
    mkState (settings (with_locations ["X"])) [] [] 0 []
      [mkTask 1 (AwaitTimer (VString "X")) 0] [(0, VString "X")] [] in
  ∃ st', run [AddLocationClick " Y "; TimerFired 0] st = Some st'
         ∧ tasks st' !! 0 = Some (mkTask 2 (AwaitFetch (VString "Y")) 1000).
Proof.
  intros st.
  destruct (location_added_in_flight st 0 (mkTask 1 (AwaitTimer (VString "X")) 0)
              (VString "X") [VString "X"] " Y " eq_refl eq_refl eq_refl eq_refl)
    as [_ (st' & Hrun & Htask & _)]; [done |].
  by exists st'.
Defined.

(** X12: when a location at or before the one just processed is removed
    during the delay, the locations after it move down under the iterator:
    the cycle goes on with what was two places further in the list, and the
    location that was next is passed over. *)
Theorem location_removed_in_flight
  (st : State) (tid : nat) (t : task) (city skipped next : value)
  (l : list value) (i j : nat) :
  tasks st !! tid = Some t → at_point t = AwaitTimer city →
  setting "locations" st = VArray l → iter_next t = S i → j ≤ i →
  l !! S i = Some skipped → l !! S (S i) = Some next →
  (∃ st', run [TimerFired tid] st = Some st'
          ∧ tasks st' !! tid
            = Some (mkTask (S (S i)) (AwaitFetch skipped) (waited t + 1000)))
  ∧ (∃ st', run [RemoveLocationClick j; TimerFired tid] st = Some st'
            ∧ tasks st' !! tid
              = Some (mkTask (S (S i)) (AwaitFetch next) (waited t + 1000))
            ∧ requests st' = requests st ++ [(tid, next)]).
Proof.
  intros Ht Hp Hloc Hi Hj Hskipped Hnext.
  assert (Htid : tid < length (tasks st)) by (by eapply lookup_lt_Some).
  assert (Hlen : j < length l).
  { apply lookup_lt_Some in Hskipped. lia. }
  split.
  - cbn [run]. rewrite (step_timer tid st t city Ht Hp). cbn [mbind option_bind].
    unfold after_timer. rewrite Hi.
    rewrite (loop_head_fetch tid (S i) _ st l skipped Hloc Hskipped).
    eexists. split; [reflexivity |]. by apply tasks_set_task.
  - cbn [run]. rewrite (step_remove_location j st l Hloc Hlen). cbn [mbind option_bind].
    set (st1 := set_setting "locations" (VArray (delete j l)) st).
    rewrite (step_timer tid st1 t city Ht Hp). cbn [mbind option_bind].
    unfold after_timer. rewrite Hi.
    rewrite (loop_head_fetch tid (S i) _ st1 (delete j l) next).
    + eexists. split; [reflexivity |]. split; [by apply tasks_set_task | done].
    + apply setting_set_setting.
    + by rewrite list_lookup_delete_ge by lia.
Qed.

Lemma location_removed_in_flight_witness :
  let st :=
    mkState initial_settings [] [] 0 []
      [mkTask 1 (AwaitTimer (VString "New York, USA")) 0]
      [(0, VString "New York, USA")] [] in
  ∃ st', run [RemoveLocationClick 0; TimerFired 0] st = Some st'
         ∧ tasks st' !! 0 = Some (mkTask 2 (AwaitFetch (VString "Cancun, Mexico")) 1000).
Proof.
  intros st.
  destruct (location_removed_in_flight st 0
              (mkTask 1 (AwaitTimer (VString "New York, USA")) 0)
              (VString "New York, USA") (VString "Miami, USA") (VString "Cancun, Mexico")
              [VString "New York, USA"; VString "Miami, USA"; VString "Cancun, Mexico"]
              0 0 eq_refl eq_refl eq_refl eq_refl (le_n 0) eq_refl eq_refl)
    as [_ (st' & Hrun & Htask & _)].
  by exists st'.
Defined.

(** ** Editing the list of locations *)

(** X13: the [Remove] button of index [i] takes out the location at [i]
    and that one only: the list is one shorter, the locations before [i]
    keep their index and those after it move down by one. *)
Theorem removeLocation_shifts (st : State) (l : list value) (i : nat) :
  setting "locations" st = VArray l → i < length l →
  ∃ st' l',
    step (RemoveLocationClick i) st = Some st'
    ∧ setting "locations" st' = VArray l'
    ∧ S (length l') = length l
    ∧ (∀ j, j < i → l' !! j = l !! j)
    ∧ (∀ j, i ≤ j → l' !! j = l !! S j).
Proof.
  intros Hloc Hi. exists (set_setting "locations" (VArray (delete i l)) st), (delete i l).
  split_and!.
  - by apply step_remove_location.
  - apply setting_set_setting.
  - rewrite length_delete by (by apply lookup_lt_is_Some_2). lia.
  - intros j Hj. by apply list_lookup_delete_lt.
  - intros j Hj. by apply list_lookup_delete_ge.
Qed.

Lemma removeLocation_shifts_witness :
  ∃ st',
    step (RemoveLocationClick 1) init = Some st'
    ∧ setting "locations" st' = VArray [VString "New York, USA"; VString "Cancun, Mexico"].
Proof.
  destruct (removeLocation_shifts init
              [VString "New York, USA"; VString "Miami, USA"; VString "Cancun, Mexico"] 1
              eq_refl) as (st' & l' & Hstep & Hloc & Hlen & Hlt & Hge); [cbn; lia |].
  exists st'. split; [exact Hstep |]. rewrite Hloc. f_equal.
  apply list_eq. intros [| [| j]].
  - by rewrite Hlt by lia.
  - by rewrite Hge by lia.
  - by rewrite Hge by lia.
Defined.

(** X14: adding a location and removing it again with the [Remove] button
    it was given leaves the program as it was. *)
Theorem add_then_remove (st : State) (l : list value) (text : string) :
  settings st !! "locations" = Some (VArray l) → Str.trim text ≠ EmptyString →
  run [AddLocationClick text; RemoveLocationClick (length l)] st = Some st.
Proof.
  intros Hloc Htext.
  assert (Hl : setting "locations" st = VArray l) by (unfold setting; by rewrite Hloc).
  cbn [run]. rewrite (step_add_location text st l Hl Htext). cbn [mbind option_bind].
  rewrite (step_remove_location (length l) _ (l ++ [VString (Str.trim text)]));
    [| apply setting_set_setting | rewrite length_app; cbn; lia].
  cbn [mbind option_bind]. f_equal.
  rewrite (delete_middle l [] (VString (Str.trim text))), app_nil_r.
  destruct st. unfold set_setting, with_settings. cbn in *. f_equal.
  rewrite insert_insert_eq. by apply insert_id.
Qed.

Lemma add_then_remove_witness :
  run [AddLocationClick "Lima, Peru"; RemoveLocationClick 3] init = Some init.
Proof.
  by apply (add_then_remove init
              [VString "New York, USA"; VString "Miami, USA"; VString "Cancun, Mexico"]
              "Lima, Peru" eq_refl).
Defined.

(** [trim] gives a string that [trim] leaves alone. *)
Lemma trim_start_head (s : string) :
  match Str.trim_start s with
  | EmptyString => True
  | String c _ => Str.is_space c = false
  end.
Proof.
  induction s as [| c s IH]; cbn; [done |].
  destruct (Str.is_space c) eqn:Hc; [done | by cbn].
Qed.

Lemma trim_start_fixed (s : string) :
  match s with
  | EmptyString => True
  | String c _ => Str.is_space c = false
  end → Str.trim_start s = s.
Proof. destruct s as [| c s]; cbn; [done |]. by intros ->. Qed.

Lemma trim_end_head (c : ascii) (s : string) :
  Str.is_space c = false → ∃ s', Str.trim_end (String c s) = String c s'.
Proof. intros Hc. cbn. destruct (Str.trim_end s); rewrite ?Hc; eauto. Qed.

Lemma trim_end_cons (c a : ascii) (s b : string) :
  Str.trim_end s = String a b → Str.trim_end (String c s) = String c (String a b).
Proof. intros Hs. cbn. by rewrite Hs. Qed.

Lemma trim_end_idem (s : string) : Str.trim_end (Str.trim_end s) = Str.trim_end s.
Proof.
  induction s as [| c s IH]; [done |].
  destruct (Str.trim_end s) as [| c' t] eqn:Ht.
  - cbn. rewrite Ht. destruct (Str.is_space c) eqn:Hc; cbn; [done | by rewrite Hc].
  - rewrite (trim_end_cons c c' s t Ht). by apply trim_end_cons.
Qed.

Lemma trim_idem (s : string) : Str.trim (Str.trim s) = Str.trim s.
Proof.
  unfold Str.trim. pose proof (trim_start_head s) as Hhead.
  destruct (Str.trim_start s) as [| c t] eqn:Hs; [done |].
  destruct (trim_end_head c t Hhead) as [s' Hs'].
  rewrite Hs'. rewrite trim_start_fixed by done.
  rewrite <- Hs'. apply trim_end_idem.
Qed.

Lemma trimmed_step (e : event) (st st' : State) (names : list string) :
  step e st = Some st' →
  setting "locations" st = VArray (VString <$> names) → Forall trimmed names →
  ∃ names', setting "locations" st' = VArray (VString <$> names') ∧ Forall trimmed names'.
Proof.
  intros Hstep Hloc Hall.
  destruct (decide (written_by e = Some "locations")) as [Hw | Hw].
  - destruct e; try done; cbn in Hstep.
    + injection Hstep as <-. unfold addLocation. rewrite Hloc.
      destruct (String.eqb_spec (Str.trim text) "") as [Hempty | Hfull]; cbn [negb].
      * by exists names.
      * exists (names ++ [Str.trim text]). rewrite setting_set_setting, fmap_app.
        split; [done |]. apply Forall_app. split; [done |].
        apply Forall_singleton. split; [done | apply trim_idem].
    + rewrite Hloc in Hstep. case_decide; [| done]. injection Hstep as <-.
      unfold removeLocation. rewrite Hloc. exists (delete index names).
      rewrite setting_set_setting, list_fmap_delete. split; [done |].
      by apply Forall_delete.
  - exists names. split; [| done].
    unfold setting in *. by rewrite (step_other_fields e st st' _ Hstep Hw).
Qed.



(** ** Colours *)

Lemma digit_of_16_range (c : ascii) (d : Z) :
  Str.digit_of 16 c = Some d → (0 ≤ d < 16)%Z.
Proof.
  unfold Str.digit_of. set (n := Str.code c).
  destruct ((48 <=? n)%Z && (n <=? 57)%Z) eqn:H1;
    [| destruct ((97 <=? n)%Z && (n <=? 122)%Z) eqn:H2;
       [| destruct ((65 <=? n)%Z && (n <=? 90)%Z) eqn:H3; [| done]]].
  all: match goal with |- context [(?v <? 16)%Z] => destruct (v <? 16)%Z eqn:Hlt end;
    [| done]; intros [= <-]; apply Z.ltb_lt in Hlt.
  - apply andb_true_iff in H1 as [?%Z.leb_le _]. lia.
  - apply andb_true_iff in H2 as [?%Z.leb_le _]. lia.
  - apply andb_true_iff in H3 as [?%Z.leb_le _]. lia.
Qed.

Lemma hex_digits_range (s : string) :
  ∀ ds, hex_digits s = Some ds → Forall (fun d => (0 ≤ d < 16)%Z) ds.
Proof.
  induction s as [| c s IH]; intros ds; cbn.
  - intros [= <-]. constructor.
  - destruct (Str.digit_of 16 c) as [d |] eqn:Hd; [| done].
    destruct (hex_digits s) as [ds' |]; [| done]. intros [= <-].
    constructor; [by eapply digit_of_16_range | by apply IH].
Qed.

Lemma hex_digits_length (s : string) :
  ∀ ds, hex_digits s = Some ds → length ds = String.length s.
Proof.
  induction s as [| c s IH]; intros ds; cbn.
  - by intros [= <-].
  - destruct (Str.digit_of 16 c); [| done].
    destruct (hex_digits s) as [ds' |]; [| done]. intros [= <-]. cbn. by rewrite (IH ds').
Qed.

Lemma read_digits_hex (s : string) :
  ∀ ds acc n, hex_digits s = Some ds →
              Str.read_digits 16 acc n s = (hex_value acc ds, n + length ds, EmptyString).
Proof.
  induction s as [| c s IH]; intros ds acc n; cbn.
  - intros [= <-]. cbn. by rewrite Nat.add_0_r.
  - destruct (Str.digit_of 16 c) as [d |]; [| done].
    destruct (hex_digits s) as [ds' |]; [| done]. intros [= <-].
    rewrite (IH ds' _ _ eq_refl). cbn. do 2 f_equal. lia.
Qed.

Lemma hex_value_bounds (ds : list Z) :
  ∀ acc, Forall (fun d => (0 ≤ d < 16)%Z) ds → (0 ≤ acc)%Z →
         (0 ≤ hex_value acc ds < (acc + 1) * 16 ^ Z.of_nat (length ds))%Z.
Proof.
  induction ds as [| d ds IH]; intros acc Hall Hacc; cbn [hex_value foldl length].
  - cbn. lia.
  - apply Forall_cons in Hall as [Hd Hall].
    specialize (IH (16 * acc + d)%Z Hall). unfold hex_value in IH.
    rewrite Nat2Z.inj_succ, Z.pow_succ_r by lia. nia.
Qed.

(** Below [2^53] an integer is stored as it is. *)
Lemma of_integer_exact (z : Z) : (Z.abs z < 2 ^ 53)%Z → of_integer z = of_Z z.
Proof.
  intros Hz. unfold of_integer. cbv zeta.
  destruct (Z.ltb_spec (Z.abs z) (2 ^ 53)) as [_ | Hge]; [reflexivity | lia].
Qed.

(** X16: for a colour written [#] and one to thirteen hexadecimal digits
    (a colour picker gives six), both colour handlers store the integer
    that the digits denote, which is below 16 to the number of digits; six
    digits give a number from 0 to 16777215. *)
Theorem color_input_hex (s : string) (ds : list Z) (st : State) :
  hex_digits s = Some ds → s ≠ EmptyString → String.length s ≤ 13 →
  step (BgColorInput (String "#" s)) st
  = Some (set_setting "backgroundColor" (VNumber (of_Z (hex_value 0 ds))) st)
  ∧ step (MarkerColorInput (String "#" s)) st
    = Some (set_setting "markerColor" (VNumber (of_Z (hex_value 0 ds))) st)
  ∧ (0 ≤ hex_value 0 ds < 16 ^ Z.of_nat (String.length s))%Z.
Proof.
  intros Hds Hs Hlen.
  assert (Hb : (0 ≤ hex_value 0 ds < 16 ^ Z.of_nat (String.length s))%Z).
  { pose proof (hex_value_bounds ds 0 (hex_digits_range s ds Hds) (Z.le_refl 0)) as Hb.
    rewrite (hex_digits_length s ds Hds) in Hb. lia. }
  assert (Hsmall : (Z.abs (hex_value 0 ds) < 2 ^ 53)%Z).
  { assert (Hpow : (16 ^ Z.of_nat (String.length s) ≤ 16 ^ 13)%Z)
      by (apply Z.pow_le_mono_r; lia).
    change (16 ^ 13)%Z with 4503599627370496%Z in Hpow.
    change (2 ^ 53)%Z with 9007199254740992%Z. lia. }
  assert (Hcolor : color_of (String "#" s) = VNumber (of_Z (hex_value 0 ds))).
  { unfold color_of.
    change (Str.replace_first "#" "0x" (String "#" s)) with (String "0" (String "x" s)).
    change (Str.parseInt (String "0" (String "x" s)))
      with (let '(v, n, _) := Str.read_digits 16 0 0 s in
            match n with O => NaN | S _ => of_integer v end).
    rewrite (read_digits_hex s ds 0 0 Hds).
    destruct ds as [| d ds].
    - destruct s as [| a s]; [done | cbn in Hds].
      destruct (Str.digit_of 16 a); [| done]. by destruct (hex_digits s).
    - cbn [Nat.add length]. by rewrite of_integer_exact. }
  cbn [step]. rewrite Hcolor. split; [done | split; [done |]]. exact Hb.
Qed.

Lemma color_input_hex_witness :
  step (MarkerColorInput "#00ff00") init
  = Some (set_setting "markerColor" (VNumber (Num 65280)) init).
Proof.
  assert (Hlen : String.length "00ff00" ≤ 13) by (cbn; lia).
  by destruct (color_input_hex "00ff00" [0; 0; 15; 15; 0; 0]%Z init eq_refl
                 ltac:(done) Hlen)
    as (_ & Hmarker & _).
Defined.

(** ** The view *)

Lemma mul_div_5 (n : number) : (n / Num 5 * Num 5)%js = n.
Proof.
  destruct n as [a | | |]; cbn [div].
  - destruct (Req_EM_T 5 0) as [H | _]; [lra |]. cbn. f_equal. field.
  - destruct (Rlt_dec 5 0) as [H | _]; [lra |]. cbn. unfold signed_inf.
    repeat (destruct (Rlt_dec _ _); try lra); done.
  - destruct (Rlt_dec 5 0) as [H | _]; [lra |]. cbn. unfold signed_inf.
    repeat (destruct (Rlt_dec _ _); try lra); done.
  - done.
Qed.

Lemma view_ok_step (e : event) (st st' : State) (v : View) :
  view_ok st v → step e st = Some st' → view_ok st' (view_handler e st' v).
Proof.
  intros (Hclear & Hamb & Hdir & Hy & s & Hscale & Hside) Hstep.
  assert (Hother : ∀ k, written_by e ≠ Some k → settings st' !! k = settings st !! k)
    by (intros k; by apply step_other_fields).
  assert (Hwritten : ∀ k x, written_by e = Some k →
            st' = set_setting k x st → settings st' !! k = Some x)
    by (intros k x _ ->; apply lookup_insert_eq).
  unfold view_ok, setting in *.
  destruct e;
    cbn [view_handler clear_color ambient_intensity directional_intensity
           plane_scale plane_y];
    unfold setting;
    try (rewrite !Hother by done; eauto 10; fail);
    injection Hstep as Hst'; symmetry in Hst';
    rewrite (Hwritten _ _ eq_refl Hst'); rewrite !Hother by done; cbn [default id].
  - eauto 10.
  - eauto 10.
  - eauto 10.
  - split_and!; try done. eexists. split; [done |].
    unfold plane_base. by rewrite mul_div_5.
  - eauto 10.
Qed.

Lemma view_ok_init : view_ok init initial_view.
Proof.
  unfold view_ok. split_and!; try done.
  exists (Num 1). split; [done |].
  change (Val.to_number (setting "shadowSize" init)) with (Normal (Num 5)).
  unfold plane_base. cbn [mul]. do 2 f_equal. lra.
Qed.

(** X17: after any events, the renderer, the lights and the shadow plane
    show what [settings] holds: the clear colour is
    [settings.backgroundColor], the plane is at [settings.shadowPosition],
    its scale times the side 5 of its geometry is [settings.shadowSize], and
    each light has the intensity in [settings], or 1.5 while [settings] has
    none. *)
Theorem view_follows_settings (es : list event) (st : State) (v : View) :
  run_view es (init, initial_view) = Some (st, v) → view_ok st v.
Proof.
  assert (Hgen : ∀ es s w s' w',
            view_ok s w → run_view es (s, w) = Some (s', w') → view_ok s' w').
  { clear. induction es as [| e es IH]; intros s w s' w' Hok Hrun; cbn [run_view] in Hrun.
    - by injection Hrun as <- <-.
    - unfold step_view in Hrun. cbn [fst snd] in Hrun.
      destruct (step e s) as [s1 |] eqn:Hstep; cbn [mbind option_bind] in Hrun; [| done].
      apply (IH s1 (view_handler e s1 w) s' w'); [| done]. by apply (view_ok_step e s). }
  intros Hrun. by apply (Hgen es init initial_view st v view_ok_init).
Qed.

Lemma view_follows_settings_witness :
  view_ok
    (set_setting "ambientLightIntensity" (number_of "2")
       (set_setting "shadowSize" (number_of "7.5") init))
    (mkView (VNumber (Num 16777215)) (number_of "2") (VNumber (Num 1.5))
       (mkVector3 (Str.parseFloat "7.5" / Num 5)%js (Str.parseFloat "7.5" / Num 5)%js
          (Str.parseFloat "7.5" / Num 5)%js)
       (setting "shadowPosition" init)).
Proof.
  apply (view_follows_settings [ShadowSizeInput "7.5"; AmbientLightInput "2"]).
  reflexivity.
Defined.

(** ** Markers under any interleaving *)

Lemma all_placed_same (st st' : State) :
  markers st' = markers st → placed st' = placed st → requests st ⊆ requests st' →
  all_placed st → all_placed st'.
Proof.
  intros Hm Hp Hr Hall m Hin. rewrite Hm in Hin.
  destruct (Hall m Hin) as [c Hc]. exists c. by apply (marker_of_cycle_mono st).
Qed.

Lemma all_placed_loop_head (tid i w : nat) (st : State) :
  all_placed st → all_placed (loop_head tid i w st).
Proof.
  intros Hall. apply (all_placed_same st); [| | | done];
    destruct (loop_head_cases tid i w st) as [[city ->] | (t & -> & _)]; try done.
  cbn. intros x Hx. apply elem_of_app. by left.
Qed.

Lemma all_placed_place_marker (tid index : nat) (city : value) (lat lon : number)
  (st : State) :
  (tid, city) ∈ requests st → scene_ok st → all_placed st →
  all_placed (place_marker tid index city lat lon st).
Proof.
  intros Hreq [Hch Hnd Hmb Hpb Hpl Hpe] Hall m.
  cbn. intros [Hm | ->%list_elem_of_singleton]%elem_of_app.
  - destruct (Hall m Hm) as (c & p & Hf & Hc & Hr & Hpos).
    exists c, p. cbn. rewrite filter_snoc_False; [done |].
    cbn. apply Hmb in Hm. lia.
  - exists tid. eexists. cbn. rewrite filter_snoc_only; [done | | done].
    intros p Hp Heq. apply Hpb in Hp. lia.
Qed.

Lemma all_placed_step (e : event) (st st' : State) :
  scene_ok st → all_placed st → step e st = Some st' → all_placed st'.
Proof.
  intros Hsc Hall Hstep. pose proof (step_continuation e st st' Hstep) as Hc.
  destruct (written_by e) as [k |] eqn:Hw.
  - destruct (sidebar_only_settings e st st' Hstep (ex_intro _ k Hw))
      as (Hm & _ & _ & _ & Hr & Hp).
    apply (all_placed_same st); [done | done | by rewrite Hr | done].
  - destruct e; try done; cbn in Hstep; try (injection Hstep as <-).
    + unfold geocodeAndAddMarkers. apply all_placed_loop_head.
      intros m Hm. by apply elem_of_nil in Hm.
    + destruct Hc as (t & city & Ht & Hp & ->). unfold after_fetch, catch_error.
      destruct r as [error | body]; [by apply all_placed_loop_head |].
      by apply (all_placed_same st).
    + destruct Hc as (t & city & body & Ht & Hp & ->).
      assert (Hreq : (tid, city) ∈ requests st)
        by (eapply (pending_looked_up st Hsc); eauto).
      unfold after_json, catch_error.
      destruct body as [error | data]; [by apply all_placed_loop_head |].
      destruct (geocoded data) as [[[lat lon] |] | error].
      * apply (all_placed_same (place_marker tid (pred (iter_next t)) city lat lon st));
          [done | done | done |]. by apply all_placed_place_marker.
      * by apply (all_placed_same st).
      * by apply all_placed_loop_head.
    + destruct Hc as (t & city & Ht & Hp & ->). by apply all_placed_loop_head.
Qed.



(** ** One cycle after another *)

Lemma idle_lookup (st : State) :
  (∀ tid t, tasks st !! tid = Some t → in_flight t = false) → idle st = true.
Proof.
  intros Hall. unfold idle. apply forallb_forall. intros t Ht.
  apply list_elem_of_In, list_elem_of_lookup in Ht as [tid Ht].
  by rewrite (Hall tid t Ht).
Qed.

(** X19: a cycle started when no cycle is in flight and left to run on
    its own overlaps no other cycle and leaves no cycle in flight, so that
    the next one can start in the same way. *)
Theorem cycle_returns_to_idle (net : network) (l : list value) (st : State) :
  idle st = true → setting "locations" st = VArray l →
  ∃ st',
    run_cycle net l st = Some st'
    ∧ sequential (Refresh :: cycle_events net (length (tasks st)) 0 l) st = true
    ∧ idle st' = true.
Proof.
  intros Hidle Hloc. exists (cycle_result net l st).
  split_and!; [by apply run_cycle_result | by apply sequential_cycle |].
  apply idle_lookup. intros tid t. unfold cycle_result. rewrite cycle_from_tasks.
  cbn [tasks with_tasks clearMarkers].
  intros [(_ & <- & _) | (_ & [Ht | [_ Ht]]%lookup_app_Some)]%list_lookup_insert_Some.
  - done.
  - by apply (idle_not_in_flight st tid).
  - by apply list_lookup_singleton_Some in Ht as [_ <-].
Qed.

Lemma cycle_returns_to_idle_witness :
  ∃ st',
    run_cycle online
      [VString "New York, USA"; VString "Miami, USA"; VString "Cancun, Mexico"] init
    = Some st'
    ∧ idle st' = true.
Proof.
  destruct (cycle_returns_to_idle online
              [VString "New York, USA"; VString "Miami, USA"; VString "Cancun, Mexico"]
              init eq_refl eq_refl) as (st' & Hrun & _ & Hidle).
  by exists st'.
Defined.
